(** * jirablockers: blocker graph of a JIRA component

    A shallow embedding of [jirablockers.py].  Issues are read-only
    snapshots, modelled as records; attributes whose presence the script
    tests with [hasattr] are [option] fields.  The dictionary built by
    [get_blocked] is a finite map keyed by issue key.  [print] and the
    requests sent to the tracker are recorded as a trace of events, and an
    uncaught Python exception is a result of its own. *)

From Stdlib Require Import String Ascii List Bool Arith Lia.
From Stdlib Require Import DecimalString.
From stdpp Require Import base option list strings gmap fin_maps.

Local Open Scope string_scope.
Local Open Scope list_scope.

(** ** Data model *)

(** An object of the tracker that the script only reads the [name] of:
    a status, a priority, a severity, a component or a link type. *)
Record Named := { name : string }.

(** The stub of an issue carried by a link: only its key is read. *)
Record IssueRef := { ref_key : string }.

Record IssueLink := {
  link_type : Named;
  outwardIssue : option IssueRef;   (* hasattr(link, 'outwardIssue') *)
  inwardIssue : option IssueRef     (* hasattr(link, 'inwardIssue') *)
}.

(** The fields of an issue that the script reads.  The status, the priority
    and a severity that is present are objects with a name: an issue whose
    priority is null, or whose severity attribute is present and null (on
    which [.name] raises [AttributeError]), is outside this model. *)
Record Fields := {
  f_status : Named;
  f_priority : Named;
  f_severity : option Named;            (* hasattr(issue.fields, 'severity') *)
  f_components : option (list Named);   (* hasattr(issue.fields, 'components') *)
  f_issuelinks : list IssueLink
}.

Record Issue := { key : string; fields : Fields }.

(** The value stored per key by [get_blocked]:
    [{'blocks': ..., 'is-blocked-by': ...}]. *)
Record BlockingRecord := {
  blocks : list string;
  is_blocked_by : list string
}.

(** Python's [x in l] on a list of strings. *)
Definition str_in (x : string) (l : list string) : bool :=
  existsb (String.eqb x) l.

(** ** Relevance filter *)

Definition resolved (issue : Issue) : bool :=
  str_in (name (f_status (fields issue))) ["Done"; "Resolved"; "Fertig"; "Closed"].

Definition components (issue : Issue) : list string :=
  match f_components (fields issue) with
  | Some cs => map name cs
  | None => []
  end.

(** [component in components(issue)]: the component argument is [None] or a
    string, and [None] equals no component name. *)
Definition component_in (component : option string) (names : list string) : bool :=
  match component with
  | Some c => str_in c names
  | None => false
  end.

Definition relevant (issue : Issue) (component : option string) : bool :=
  if resolved issue then false
  else if component_in component (components issue) then false
  else str_in (name (f_priority (fields issue))) ["High"; "Highest"]
       || match f_severity (fields issue) with
          | Some severity => str_in (name severity) ["Major"]
          | None => false
          end.

(** ** Exceptions

    The script catches nothing: an exception ends the run.  [IndexError]
    is what [filter(...)[0]] raises on an empty list, [SystemExit] is what
    [exit(42)] raises. *)
Inductive exn := IndexError | SystemExit (code : nat).

Inductive result (A : Type) := Ok (a : A) | Raise (e : exn).
Arguments Ok {A} a.
Arguments Raise {A} e.

#[global] Instance result_ret : MRet result := @Ok.
#[global] Instance result_bind : MBind result := fun A B f m =>
  match m with
  | Ok a => f a
  | Raise e => Raise e
  end.

(** ** Graph renderer *)

(** What the script does to the outside world: a line printed on standard
    output, or one search request sent to the tracker. *)
Inductive event :=
| Print (text : string)
| Search (query : string) (start_at max_results : nat).

(** A computation with effects: the events so far, and how it ended.
    [outcome = None] only says that a [while] loop of the model was not
    given enough iterations to finish. *)
Record M (A : Type) := MkM { trace : list event; outcome : option (result A) }.
Arguments MkM {A} trace outcome.
Arguments trace {A} m.
Arguments outcome {A} m.

#[global] Instance M_ret : MRet M := fun A a => MkM [] (Some (Ok a)).
#[global] Instance M_bind : MBind M := fun A B f m =>
  match outcome m with
  | Some (Ok a) => MkM (trace m ++ trace (f a)) (outcome (f a))
  | Some (Raise e) => MkM (trace m) (Some (Raise e))
  | None => MkM (trace m) None
  end.

Definition print (text : string) : M unit := MkM [Print text] (Some (Ok tt)).
Definition raise {A : Type} (e : exn) : M A := MkM [] (Some (Raise e)).
Definition lift {A : Type} (r : result A) : M A := MkM [] (Some r).

(** [for x in l: body(x)] *)
Fixpoint for_each {A : Type} (l : list A) (body : A -> M unit) : M unit :=
  match l with
  | [] => mret tt
  | x :: l' => body x ;; for_each l' body
  end.

Definition DQ : string := String "034" EmptyString.
Definition LF : string := String "010" EmptyString.

(** ['"{}" '.format(issue)], with ["[ shape = triangle ]"] appended to the
    format when [special]. *)
Definition node (issue : string) (special : bool) : string :=
  let fmt_tail := " " +:+ (if special then "[ shape = triangle ]" else "") in
  DQ +:+ issue +:+ DQ +:+ fmt_tail.

Definition header : string :=
  "digraph blockers {" +:+ LF +:+
  "             layout=neato;" +:+ LF +:+
  "             overlap=false;" +:+ LF +:+
  "             sep=" +:+ DQ +:+ "+1" +:+ DQ +:+ ";".

(** ['{} -> {};'.format(node(issue), node(out_issue))] *)
Definition edge (issue out_issue : string) : string :=
  node issue false +:+ " -> " +:+ node out_issue false +:+ ";".

(** Python's truth value of a list. *)
Definition truthy {A : Type} (l : list A) : bool :=
  match l with [] => false | _ :: _ => true end.

Definition output_record (item : string * BlockingRecord) : M unit :=
  let '(issue, blocked_info) := item in
  let special := negb (truthy (is_blocked_by blocked_info)) in
  (if special then print (node issue special) else mret tt) ;;
  for_each (blocks blocked_info) (fun out_issue =>
    print (node out_issue false) ;;
    print (edge issue out_issue)).

(** [blocked.iteritems()] visits every entry once, in an order the language
    leaves open; [map_to_list] is one such order. *)
Definition output (blocked : gmap string BlockingRecord) : M unit :=
  print header ;;
  for_each (map_to_list blocked) output_record ;;
  print "}".

(** ** Blocker linker *)

(** [filter((lambda issue: issue.key == key), issues)[0]] *)
Definition get_issue (k : string) (issues : list Issue) : result Issue :=
  match List.filter (fun issue => String.eqb (key issue) k) issues with
  | x :: _ => Ok x
  | [] => Raise IndexError
  end.

(** [for x in l: acc = body(x, acc)], stopping at the first exception. *)
Fixpoint fold_result {A S : Type} (body : A -> S -> result S) (l : list A) (s : S)
  : result S :=
  match l with
  | [] => Ok s
  | x :: l' => s' ← body x s; fold_result body l' s'
  end.

Section Linker.

(** The test that [outward_issue in check_issues] applies to each element
    of the list: identity or [==] of two issue objects.  What [==] means on
    issue objects is decided by the tracker's client library. *)
Variable Issue_eq : Issue -> Issue -> bool.

Definition issue_in (x : Issue) (l : list Issue) : bool := existsb (Issue_eq x) l.

(** The body of [for link in issue.fields.issuelinks], on the pair
    [(outward_issues, inward_issues)].  The [continue] of the outward
    branch leaves the body before the inward branch. *)
Definition link_body (check_issues all_issues : list Issue) (component : option string)
    (link : IssueLink) (acc : list string * list string)
  : result (list string * list string) :=
  let '(outward_issues, inward_issues) := acc in
  let inward_branch (outward_issues : list string) :=
    match inwardIssue link with
    | Some ref =>
        inward_issue ← get_issue (ref_key ref) all_issues;
        if relevant inward_issue None
        then Ok (outward_issues, inward_issues ++ [key inward_issue])
        else Ok (outward_issues, inward_issues)
    | None => Ok (outward_issues, inward_issues)
    end in
  if String.eqb (name (link_type link)) "Blocks" then
    match outwardIssue link with
    | Some ref =>
        outward_issue ← get_issue (ref_key ref) all_issues;
        if issue_in outward_issue check_issues
        then Ok (outward_issues, inward_issues)   (* continue *)
        else if relevant outward_issue component
        then inward_branch (outward_issues ++ [key outward_issue])
        else inward_branch outward_issues
    | None => inward_branch outward_issues
    end
  else Ok (outward_issues, inward_issues).

(** The body of [for issue in check_issues], on the dictionary. *)
Definition issue_body (check_issues all_issues : list Issue) (component : option string)
    (issue : Issue) (blocked : gmap string BlockingRecord)
  : result (gmap string BlockingRecord) :=
  if resolved issue then Ok blocked   (* continue *)
  else
    '(outward_issues, inward_issues) ←
      fold_result (link_body check_issues all_issues component)
                  (f_issuelinks (fields issue)) ([], []);
    if truthy outward_issues
    then Ok (<[key issue :=
               {| blocks := outward_issues; is_blocked_by := inward_issues |}]> blocked)
    else Ok blocked.

Definition get_blocked (check_issues all_issues : list Issue) (component : option string)
  : result (gmap string BlockingRecord) :=
  fold_result (issue_body check_issues all_issues component) check_issues ∅.

(** *** Properties of the result, used in the statements below *)

(** Every record of the dictionary has a non-empty [blocks] list. *)
Definition blocks_nonempty (blocked : gmap string BlockingRecord) : Prop :=
  forall k r, blocked !! k = Some r -> blocks r <> [].

(** What the two lists of an issue hold: keys of outward targets that are
    outside [check_issues] and relevant for the component, and keys of
    inward targets that are relevant with the component filter off. *)
Definition lists_sound (check_issues all_issues : list Issue)
    (component : option string) (acc : list string * list string) : Prop :=
  (forall k, In k (fst acc) ->
     exists t, get_issue k all_issues = Ok t
               /\ issue_in t check_issues = false
               /\ relevant t component = true)
  /\ (forall k, In k (snd acc) ->
        exists t, get_issue k all_issues = Ok t /\ relevant t None = true).

(** [outward_listed link k]: [link] is a "Blocks" link whose outward issue
    has key [k], resolves in [all_issues] to a target that is not found in
    [check_issues] and is relevant for the component. *)
Definition outward_listed (check_issues all_issues : list Issue)
    (component : option string) (link : IssueLink) (k : string) : Prop :=
  name (link_type link) = "Blocks"
  /\ exists ref target,
       outwardIssue link = Some ref
       /\ ref_key ref = k
       /\ get_issue k all_issues = Ok target
       /\ issue_in target check_issues = false
       /\ relevant target component = true.

(** [inward_listed link k]: [link] is a "Blocks" link whose inward issue has
    key [k] and resolves in [all_issues] to a target that is relevant with
    no component; if the link also has an outward issue, that one resolves and
    is not found in [check_issues], so that the loop body reaches the inward
    branch.  The component given to [get_blocked] does not occur. *)
Definition inward_listed (check_issues all_issues : list Issue)
    (link : IssueLink) (k : string) : Prop :=
  name (link_type link) = "Blocks"
  /\ (forall oref, outwardIssue link = Some oref ->
        exists o, get_issue (ref_key oref) all_issues = Ok o
                  /\ issue_in o check_issues = false)
  /\ exists ref target,
       inwardIssue link = Some ref
       /\ ref_key ref = k
       /\ get_issue k all_issues = Ok target
       /\ relevant target None = true.

End Linker.

(** ** Issue fetcher *)

(** The part of the tracker's client class [JIRA] that [JIRAWrap] calls:
    [search_issues(query, start_at, max_results)] and [issue(id)]. *)
Record JIRA := {
  search_issues : string -> nat -> nat -> list Issue;
  jira_issue : Issue -> Issue
}.

Definition MAX_ISSUES : nat := 1000.

(** One [Search] event per call. *)
Definition issues_chunk (self : JIRA) (query : string) (start_at max_results : nat)
  : M (list Issue) :=
  MkM [Search query start_at max_results]
      (Some (Ok (map (jira_issue self) (search_issues self query start_at max_results)))).

(** Statements of a loop body over local variables [L]: a statement ends
    normally or with [break]. *)
Inductive flow (L : Type) := Next (l : L) | Break (l : L).
Arguments Next {L} l.
Arguments Break {L} l.

Definition stmt (L : Type) : Type := L -> M (flow L).

(** [s1; s2]: what follows a [break] is not run. *)
Definition seq {L : Type} (s1 s2 : stmt L) : stmt L := fun l =>
  r ← s1 l;
  match r with
  | Next l' => s2 l'
  | Break l' => mret (Break l')
  end.

(** [while True: body], for at most [fuel] rounds. *)
Fixpoint while_true {L : Type} (fuel : nat) (body : stmt L) (l : L) : M L :=
  match fuel with
  | 0 => MkM [] None
  | S fuel' =>
      r ← body l;
      match r with
      | Next l' => while_true fuel' body l'
      | Break l' => mret l'
      end
  end.

(** The local variables of [component_issues] that its loop changes. *)
Record locals := {
  issues : list Issue;
  counter : nat;
  new_issues : list Issue
}.

Definition component_issues_body (self : JIRA) (query : string) (inc : nat) : stmt locals :=
  seq (fun l =>                      (* new_issues = self.issues_chunk(query, counter, inc) *)
         chunk ← issues_chunk self query (counter l) inc;
         mret (Next {| issues := issues l; counter := counter l; new_issues := chunk |}))
 (seq (fun l =>                      (* issues += new_issues *)
         mret (Next {| issues := issues l ++ new_issues l; counter := counter l;
                       new_issues := new_issues l |}))
 (seq (fun l => mret (Break l))      (* break *)
 (seq (fun l =>                      (* if len(new_issues) < inc: break *)
         if (length (new_issues l) <? inc)%nat then mret (Break l) else mret (Next l))
      (fun l =>                      (* counter += inc *)
         mret (Next {| issues := issues l; counter := counter l + inc;
                       new_issues := new_issues l |}))))).

(** ['{}'.format(n)] for a length. *)
Definition format_nat (n : nat) : string := NilZero.string_of_uint (Nat.to_uint n).

(** ['{}'.format(component)], where [component] may be [None]. *)
Definition format_component (component : option string) : string :=
  match component with
  | Some c => c
  | None => "None"
  end.

Definition jql (project : string) (component : option string) : string :=
  let query := "project=" +:+ project in
  match component with
  | Some c => query +:+ " AND component=" +:+ c
  | None => query
  end.

Definition component_issues (fuel : nat) (self : JIRA) (project : string)
    (component : option string) : M (list Issue) :=
  let inc := MAX_ISSUES in
  let query := jql project component in
  print ("# JQL: " +:+ query) ;;
  l ← while_true fuel (component_issues_body self query inc)
                 {| issues := []; counter := 0; new_issues := [] |};
  print ("# Found " +:+ format_nat (length (issues l)) +:+ " matching issues.") ;;
  mret (issues l).

(** ** Main method and command line *)

(** [run] and [main] take the equality of issue objects and the number of
    rounds allowed to each [while] loop as their first arguments. *)
Definition run (Issue_eq : Issue -> Issue -> bool) (fuel : nat) (jira : JIRA)
    (project : string) (component : option string) : M unit :=
  project_issues ← component_issues fuel jira project None;
  tfapd_issues ← component_issues fuel jira "TFAPD" None;
  let all_issues := project_issues ++ tfapd_issues in
  issues_to_check ← component_issues fuel jira project component;
  print ("# " +:+ format_nat (length issues_to_check) +:+ " in "
         +:+ format_component component) ;;
  blocked ← lift (get_blocked Issue_eq issues_to_check all_issues component);
  output blocked.

(** [sys.argv[i]].  [sys.argv] always holds the script name, and the other
    uses are guarded by a test of [len(sys.argv)]. *)
Definition argv_at (argv : list string) (i : nat) : string := nth i argv "".

Definition usage (argv : list string) : M unit :=
  print (argv_at argv 0 +:+ " <user> <server> <project> <component>") ;;
  raise (SystemExit 42).

(** The value of [COMPONENT] after lines 162-164. *)
Definition COMPONENT (argv : list string) : option string :=
  if (length argv =? 5)%nat then Some (DQ +:+ argv_at argv 4 +:+ DQ) else None.

(** The [__main__] block.  [connect user password server] stands for
    [JIRAWrap(USER, PASSWORD, server=SERVER)] and [password] for what
    [getpass.getpass()] reads. *)
Definition main (Issue_eq : Issue -> Issue -> bool) (fuel : nat)
    (connect : string -> string -> string -> JIRA) (password : string)
    (argv : list string) : M unit :=
  (if (length argv <? 4)%nat then usage argv else mret tt) ;;
  let USER := argv_at argv 1 in
  let SERVER := argv_at argv 2 in
  let PROJECT := argv_at argv 3 in
  run Issue_eq fuel (connect USER password SERVER) PROJECT (COMPONENT argv).

(** ** A small tracker to run the script on *)

Module Sample.

Definition mk_issue (k st pr : string) (sev : option string)
    (comps : option (list string)) (links : list IssueLink) : Issue :=
  {| key := k;
     fields := {| f_status := {| name := st |};
                  f_priority := {| name := pr |};
                  f_severity := option_map (fun s => {| name := s |}) sev;
                  f_components := option_map (map (fun c => {| name := c |})) comps;
                  f_issuelinks := links |} |}.

Definition blocks_out (k : string) : IssueLink :=
  {| link_type := {| name := "Blocks" |};
     outwardIssue := Some {| ref_key := k |};
     inwardIssue := None |}.

Definition blocks_in (k : string) : IssueLink :=
  {| link_type := {| name := "Blocks" |};
     outwardIssue := None;
     inwardIssue := Some {| ref_key := k |} |}.

(** [a] (component X) blocks [b] (component Y, High) and is blocked by
    [c] (component X, Major); [e] (X) blocks [f] (X, High) and [d]
    (Y, Closed); [g] (X) blocks the High issue [h] of component Y and has
    no blocker. *)
Definition a := mk_issue "P-1" "Open" "Medium" None (Some ["X"])
                         [blocks_out "P-2"; blocks_in "P-3"].
Definition b := mk_issue "P-2" "Open" "High" None (Some ["Y"]) [blocks_in "P-1"].
Definition c := mk_issue "P-3" "Open" "Low" (Some "Major") (Some ["X"])
                         [blocks_out "P-1"].
Definition d := mk_issue "P-4" "Closed" "Highest" None (Some ["Y"]) [blocks_in "P-5"].
Definition e := mk_issue "P-5" "Open" "Low" None (Some ["X"])
                         [blocks_out "P-6"; blocks_out "P-4"].
Definition f := mk_issue "P-6" "Open" "High" None (Some ["X"]) [blocks_in "P-5"].
Definition g := mk_issue "P-7" "In Progress" "Low" None (Some ["X"]) [blocks_out "P-8"].
Definition h := mk_issue "P-8" "Open" "Highest" None None [blocks_in "P-7"].

Definition project_P : list Issue := [a; b; c; d; e; f; g; h].
Definition component_X : list Issue := [a; c; e; f; g].

(** Issue objects compared by key. *)
Definition key_eq (x y : Issue) : bool := String.eqb (key x) (key y).

(** A tracker that serves pages of a fixed answer per query. *)
Definition answers (query : string) : list Issue :=
  if String.eqb query "project=P" then project_P
  else if String.eqb query ("project=P AND component=" +:+ DQ +:+ "X" +:+ DQ)
  then component_X
  else [].

Definition tracker : JIRA :=
  {| search_issues := fun query start_at max_results =>
       firstn max_results (skipn start_at (answers query));
     jira_issue := fun issue => issue |}.

Definition connect (user password server : string) : JIRA := tracker.

(** The dictionary the script builds for component X of this tracker. *)
Definition expected : gmap string BlockingRecord :=
  <["P-7" := {| blocks := ["P-8"]; is_blocked_by := [] |}]>
    (<["P-1" := {| blocks := ["P-2"]; is_blocked_by := ["P-3"] |}]> ∅).

(** A tracker with 1200 matching issues for every query. *)
Definition crowded : JIRA :=
  {| search_issues := fun query start_at max_results =>
       firstn max_results (skipn start_at (repeat a 1200));
     jira_issue := fun issue => issue |}.

Definition argv : list string := ["jirablockers.py"; "user"; "server"; "P"; "X"].

End Sample.

(** ** Facts about membership *)

Lemma str_in_In (x : string) (l : list string) : str_in x l = true <-> In x l.
Proof.
  unfold str_in. rewrite existsb_exists. split.
  - intros (y & Hy & Heq). apply String.eqb_eq in Heq. now subst.
  - intros H. exists x. split; [exact H | apply String.eqb_refl].
Qed.

Lemma str_in_false (x : string) (l : list string) : str_in x l = false <-> ~ In x l.
Proof.
  rewrite <- str_in_In. destruct (str_in x l); split; intros; congruence.
Qed.

(** C2: an issue whose status name is "Done", "Resolved", "Fertig" or
    "Closed" is never relevant, whatever the component argument and whatever
    its priority and severity. *)
Theorem relevant_resolved_false (issue : Issue) (component : option string) :
  In (name (f_status (fields issue))) ["Done"; "Resolved"; "Fertig"; "Closed"] ->
  relevant issue component = false.
Proof.
  intros Hst. unfold relevant.
  assert (Hres : resolved issue = true) by (unfold resolved; now apply str_in_In).
  now rewrite Hres.
Qed.

(** C3: for an unresolved issue outside the target component, [relevant] is
    true exactly when the priority name is "High" or "Highest", or a severity
    field exists and is named "Major". *)
Theorem relevant_iff_priority_or_severity (issue : Issue) (component : option string) :
  ~ In (name (f_status (fields issue))) ["Done"; "Resolved"; "Fertig"; "Closed"] ->
  (forall c, component = Some c -> ~ In c (components issue)) ->
  relevant issue component = true <->
  (name (f_priority (fields issue)) = "High"
   \/ name (f_priority (fields issue)) = "Highest"
   \/ exists severity, f_severity (fields issue) = Some severity
                       /\ name severity = "Major").
Proof.
  intros Hst Hcomp. unfold relevant.
  assert (Hres : resolved issue = false) by (unfold resolved; now apply str_in_false).
  assert (Hin : component_in component (components issue) = false).
  { destruct component as [c|]; [|reflexivity]. apply str_in_false. now apply Hcomp. }
  rewrite Hres, Hin, orb_true_iff, str_in_In. split.
  - intros [[H | [H | []]] | H]; [now left | now right; left |].
    destruct (f_severity (fields issue)) as [sev|]; [|discriminate].
    apply str_in_In in H. destruct H as [H | []].
    right; right. now exists sev.
  - intros [H | [H | (sev & Hsev & Hname)]].
    + left. now left.
    + left. right. now left.
    + right. rewrite Hsev. apply str_in_In. now left.
Qed.

Lemma relevant_component_member (issue : Issue) (component : option string) :
  component_in component (components issue) = true -> relevant issue component = false.
Proof.
  intros H. unfold relevant. rewrite H. now destruct (resolved issue).
Qed.

Lemma relevant_component_other (issue : Issue) (component : option string) :
  component_in component (components issue) = false ->
  relevant issue component = relevant issue None.
Proof. intros H. unfold relevant. now rewrite H. Qed.

(** C4: an issue that has the (non-null) component argument among its
    components is not relevant. *)
Theorem relevant_own_component_false (issue : Issue) (c : string) :
  In c (components issue) -> relevant issue (Some c) = false.
Proof.
  intros Hin. apply relevant_component_member. now apply str_in_In.
Qed.

(** ** Lookup by key *)

Lemma filter_key_nil (k : string) (issues : list Issue) :
  (forall y, In y issues -> key y <> k) ->
  List.filter (fun issue => String.eqb (key issue) k) issues = [].
Proof.
  induction issues as [|y issues IH]; intros Hno; [reflexivity|].
  cbn [List.filter].
  destruct (String.eqb_spec (key y) k) as [Heq | _].
  - exfalso. apply (Hno y); [now left | exact Heq].
  - apply IH. intros z Hz. apply Hno. now right.
Qed.

Lemma get_issue_Ok_inv (k : string) (issues : list Issue) (x : Issue) :
  get_issue k issues = Ok x -> In x issues /\ key x = k.
Proof.
  unfold get_issue.
  destruct (List.filter _ issues) as [|x' rest] eqn:Hf; [discriminate|].
  intros [= <-].
  assert (Hin : In x' (List.filter (fun issue => String.eqb (key issue) k) issues))
    by (rewrite Hf; now left).
  apply List.filter_In in Hin. destruct Hin as [Hin Hk].
  split; [exact Hin | now apply String.eqb_eq].
Qed.

Lemma get_issue_total (k : string) (issues : list Issue) :
  (exists x, get_issue k issues = Ok x) \/ get_issue k issues = Raise IndexError.
Proof.
  unfold get_issue. destruct (List.filter _ issues) as [|x rest]; [now right|].
  left. now exists x.
Qed.

(** C7: [get_issue] returns the first issue of the list with the key, and
    raises [IndexError] when the list has none; it has no other result, so a
    key that resolves to nothing is never passed over. *)
Theorem get_issue_first_or_IndexError (k : string) (issues : list Issue) :
  (forall pre x post,
      issues = pre ++ x :: post -> key x = k ->
      (forall y, In y pre -> key y <> k) ->
      get_issue k issues = Ok x)
  /\ ((forall y, In y issues -> key y <> k) -> get_issue k issues = Raise IndexError)
  /\ ((exists x, get_issue k issues = Ok x /\ In x issues /\ key x = k)
      \/ (get_issue k issues = Raise IndexError /\ forall y, In y issues -> key y <> k)).
Proof.
  split; [|split].
  - intros pre x post -> Hk Hpre. unfold get_issue.
    rewrite List.filter_app, (filter_key_nil k pre Hpre). cbn [List.filter app].
    subst k. now rewrite String.eqb_refl.
  - intros Hno. unfold get_issue. now rewrite (filter_key_nil k issues Hno).
  - destruct (get_issue_total k issues) as [[x Hx] | Herr].
    + left. exists x. split; [exact Hx | now apply get_issue_Ok_inv].
    + right. split; [exact Herr|].
      intros y Hy Hk. unfold get_issue in Herr.
      assert (Hin : In y (List.filter (fun issue => String.eqb (key issue) k) issues)).
      { apply List.filter_In. split; [exact Hy | now apply String.eqb_eq]. }
      destruct (List.filter _ issues); [exact Hin | discriminate].
Qed.

(** ** Loops that may raise *)

(** An invariant kept by every round of the body holds on the result. *)
Lemma fold_result_invariant {A S : Type} (P : S -> Prop) (body : A -> S -> result S)
    (l : list A) :
  (forall x s s', In x l -> P s -> body x s = Ok s' -> P s') ->
  forall s s', P s -> fold_result body l s = Ok s' -> P s'.
Proof.
  induction l as [|x l IH]; intros Hbody s s' Hs Hfold.
  - cbn in Hfold. now injection Hfold as <-.
  - cbn in Hfold. destruct (body x s) as [s1|e] eqn:Hx; [|discriminate].
    cbn in Hfold. apply (IH (fun y t t' Hy => Hbody y t t' (or_intror Hy)) s1 s').
    + apply (Hbody x s s1); [now left | exact Hs | exact Hx].
    + exact Hfold.
Qed.

Section LinkerFacts.

Variable Issue_eq : Issue -> Issue -> bool.

Lemma issue_body_blocks_nonempty check_issues all_issues component issue
    (blocked blocked' : gmap string BlockingRecord) :
  blocks_nonempty blocked ->
  issue_body Issue_eq check_issues all_issues component issue blocked = Ok blocked' ->
  blocks_nonempty blocked'.
Proof.
  intros Hinv. unfold issue_body.
  destruct (resolved issue); [now intros [= <-]|].
  destruct (fold_result _ _ _) as [[outs ins]|e]; [|discriminate]. cbn.
  destruct outs as [|o outs]; cbn; intros [= <-]; [exact Hinv|].
  intros k r. rewrite lookup_insert. case_decide.
  - intros [= <-]. discriminate.
  - apply Hinv.
Qed.

(** C1: in a dictionary returned by [get_blocked], every key maps to a
    record whose [blocks] list is not empty. *)
Theorem get_blocked_blocks_nonempty check_issues all_issues component
    (blocked : gmap string BlockingRecord) (k : string) (r : BlockingRecord) :
  get_blocked Issue_eq check_issues all_issues component = Ok blocked ->
  blocked !! k = Some r ->
  blocks r <> [].
Proof.
  intros Hget. revert k r. change (blocks_nonempty blocked).
  unfold get_blocked in Hget.
  eapply (fold_result_invariant blocks_nonempty); [| |exact Hget].
  - intros x s s' _. apply issue_body_blocks_nonempty.
  - intros k r. now rewrite lookup_empty.
Qed.

End LinkerFacts.

Section InwardOutward.

Variable Issue_eq : Issue -> Issue -> bool.

(** One link changes the inward list in the same way for every component
    argument, and raises the same exception if it raises. *)
Lemma link_body_inward_component_free check_issues all_issues (c1 c2 : option string)
    (link : IssueLink) (outs1 outs2 ins : list string) :
  match link_body Issue_eq check_issues all_issues c1 link (outs1, ins),
        link_body Issue_eq check_issues all_issues c2 link (outs2, ins)
  with
  | Ok (_, ins1), Ok (_, ins2) => ins1 = ins2
  | Raise e1, Raise e2 => e1 = e2
  | _, _ => False
  end.
Proof.
  unfold link_body.
  destruct (String.eqb (name (link_type link)) "Blocks"); [|reflexivity].
  destruct (outwardIssue link) as [oref|]; cbn.
  - destruct (get_issue (ref_key oref) all_issues) as [o|err]; cbn; [|reflexivity].
    destruct (issue_in Issue_eq o check_issues); [reflexivity|].
    destruct (inwardIssue link) as [iref|]; cbn.
    + destruct (get_issue (ref_key iref) all_issues) as [t|err]; cbn.
      * destruct (relevant o c1), (relevant o c2), (relevant t None); reflexivity.
      * destruct (relevant o c1), (relevant o c2); reflexivity.
    + destruct (relevant o c1), (relevant o c2); reflexivity.
  - destruct (inwardIssue link) as [iref|]; [|reflexivity].
    destruct (get_issue (ref_key iref) all_issues) as [t|err]; cbn; [|reflexivity].
    destruct (relevant t None); reflexivity.
Qed.

(** The inward list built from an issue's links is the same for every
    component argument, and so is an exception raised on the way. *)
Lemma links_inward_component_free check_issues all_issues (c1 c2 : option string)
    (links : list IssueLink) :
  forall outs1 outs2 ins,
    match fold_result (link_body Issue_eq check_issues all_issues c1) links (outs1, ins),
          fold_result (link_body Issue_eq check_issues all_issues c2) links (outs2, ins)
    with
    | Ok (_, ins1), Ok (_, ins2) => ins1 = ins2
    | Raise e1, Raise e2 => e1 = e2
    | _, _ => False
    end.
Proof.
  induction links as [|link links IH]; intros outs1 outs2 ins; [reflexivity|].
  cbn [fold_result].
  pose proof (link_body_inward_component_free check_issues all_issues c1 c2 link
                outs1 outs2 ins) as Hstep.
  destruct (link_body Issue_eq check_issues all_issues c1 link (outs1, ins))
    as [[o1 i1]|e1];
    destruct (link_body Issue_eq check_issues all_issues c2 link (outs2, ins))
    as [[o2 i2]|e2]; cbn; try contradiction.
  - subst i2. apply IH.
  - exact Hstep.
Qed.

(** One round of the link loop on a link that has only an inward issue:
    the target is tested with [relevant target None] for every component
    argument; on a link that has only an outward issue the target is tested
    with the component. *)
Lemma inward_target_tested_without_component check_issues all_issues
    (component : option string) (k : string) (target : Issue)
    (link : IssueLink) (outs ins : list string) :
  name (link_type link) = "Blocks" ->
  outwardIssue link = None ->
  inwardIssue link = Some {| ref_key := k |} ->
  get_issue k all_issues = Ok target ->
  link_body Issue_eq check_issues all_issues component link (outs, ins)
    = Ok (outs, if relevant target None then ins ++ [key target] else ins)
  /\ (forall c, relevant target None = true -> In c (components target) ->
        relevant target (Some c) = false
        /\ link_body Issue_eq check_issues all_issues (Some c) link (outs, ins)
           = Ok (outs, ins ++ [key target]))
  /\ (forall out_link,
        name (link_type out_link) = "Blocks" ->
        outwardIssue out_link = Some {| ref_key := k |} ->
        inwardIssue out_link = None ->
        issue_in Issue_eq target check_issues = false ->
        link_body Issue_eq check_issues all_issues component out_link (outs, ins)
        = Ok (if relevant target component then outs ++ [key target] else outs, ins)).
Proof.
  intros Hty Hout Hin Hget.
  assert (Hinward : forall comp,
    link_body Issue_eq check_issues all_issues comp link (outs, ins)
    = Ok (outs, if relevant target None then ins ++ [key target] else ins)).
  { intros comp. unfold link_body. rewrite Hty, Hout, Hin. cbn. rewrite Hget. cbn.
    now destruct (relevant target None). }
  split; [apply Hinward | split].
  - intros c Hrel Hc. split; [apply relevant_component_member; now apply str_in_In|].
    now rewrite Hinward, Hrel.
  - intros out_link Hty' Hout' Hin' Hnotin.
    unfold link_body. rewrite Hty', Hout', Hin'. cbn. rewrite Hget. cbn.
    rewrite Hnotin. now destruct (relevant target component).
Qed.

Lemma link_body_sound check_issues all_issues component link acc acc' :
  lists_sound Issue_eq check_issues all_issues component acc ->
  link_body Issue_eq check_issues all_issues component link acc = Ok acc' ->
  lists_sound Issue_eq check_issues all_issues component acc'.
Proof.
  destruct acc as [outs ins]. intros [Houts Hins].
  assert (Hin_step : forall outs', (forall k, In k outs' ->
              exists t, get_issue k all_issues = Ok t
                        /\ issue_in Issue_eq t check_issues = false
                        /\ relevant t component = true) ->
            match inwardIssue link with
            | Some ref =>
                inward_issue ← get_issue (ref_key ref) all_issues;
                if relevant inward_issue None
                then Ok (outs', ins ++ [key inward_issue])
                else Ok (outs', ins)
            | None => Ok (outs', ins)
            end = Ok acc' ->
            lists_sound Issue_eq check_issues all_issues component acc').
  { intros outs' Houts'. destruct (inwardIssue link) as [iref|].
    - destruct (get_issue (ref_key iref) all_issues) as [t|err] eqn:Ht; cbn;
        [|discriminate].
      destruct (get_issue_Ok_inv _ _ _ Ht) as [_ Hkey].
      destruct (relevant t None) eqn:Hrel; intros [= <-]; split; cbn; auto.
      intros k Hk. apply in_app_or in Hk. destruct Hk as [Hk | [<- | []]]; [auto|].
      exists t. rewrite Hkey. now split.
    - intros [= <-]. now split. }
  unfold link_body.
  destruct (String.eqb (name (link_type link)) "Blocks");
    [|intros [= <-]; now split].
  destruct (outwardIssue link) as [oref|]; [|now apply Hin_step].
  destruct (get_issue (ref_key oref) all_issues) as [o|err] eqn:Ho; cbn; [|discriminate].
  destruct (get_issue_Ok_inv _ _ _ Ho) as [_ Hkey].
  destruct (issue_in Issue_eq o check_issues) eqn:Hmem; [intros [= <-]; now split|].
  destruct (relevant o component) eqn:Hrel; [|now apply Hin_step].
  apply Hin_step. intros k Hk.
  apply in_app_or in Hk. destruct Hk as [Hk | [<- | []]]; [auto|].
  exists o. rewrite Hkey. now repeat split.
Qed.

(** Every record returned by [get_blocked] lists under 'blocks' targets
    that passed [relevant] with the component, and under 'is-blocked-by'
    targets that passed [relevant] with [None]. *)
Lemma get_blocked_records_sound check_issues all_issues component
    (blocked : gmap string BlockingRecord) (k : string) (r : BlockingRecord) :
  get_blocked Issue_eq check_issues all_issues component = Ok blocked ->
  blocked !! k = Some r ->
  lists_sound Issue_eq check_issues all_issues component (blocks r, is_blocked_by r).
Proof.
  intros Hget. revert k r. unfold get_blocked in Hget.
  eapply (fold_result_invariant
            (fun m : gmap string BlockingRecord => forall k r, m !! k = Some r ->
               lists_sound Issue_eq check_issues all_issues component (blocks r, is_blocked_by r)));
    [| |exact Hget].
  - intros issue m m' _ Hm. unfold issue_body.
    destruct (resolved issue); [now intros [= <-]|].
    destruct (fold_result (link_body _ _ _ _) _ _) as [[outs ins]|err] eqn:Hlinks;
      [|discriminate]. cbn.
    assert (Hsound : lists_sound Issue_eq check_issues all_issues component (outs, ins)).
    { eapply (fold_result_invariant (lists_sound Issue_eq check_issues all_issues component));
        [| |exact Hlinks].
      - intros link acc acc' _. apply link_body_sound.
      - split; intros k' []. }
    destruct (truthy outs); intros [= <-]; [|exact Hm].
    intros k r. rewrite lookup_insert. case_decide; [|apply Hm].
    now intros [= <-].
  - intros k r. now rewrite lookup_empty.
Qed.

End InwardOutward.

(** ** Traces *)

Lemma bind_Ok {A B : Type} (m : M A) (k : A -> M B) (x : A) :
  outcome m = Some (Ok x) ->
  m ≫= k = MkM (trace m ++ trace (k x)) (outcome (k x)).
Proof. intros H. unfold mbind, M_bind. now rewrite H. Qed.

Lemma bind_print {B : Type} (text : string) (k : unit -> M B) :
  print text ≫= k = MkM (Print text :: trace (k tt)) (outcome (k tt)).
Proof. reflexivity. Qed.

(** A loop whose body never raises prints what its rounds print, in order. *)
Lemma for_each_Ok {A : Type} (body : A -> M unit) (l : list A) :
  (forall x, outcome (body x) = Some (Ok tt)) ->
  for_each l body = MkM (flat_map (fun x => trace (body x)) l) (Some (Ok tt)).
Proof.
  intros Hbody. induction l as [|x l IH]; [reflexivity|].
  cbn [for_each flat_map]. rewrite (bind_Ok _ _ tt (Hbody x)), IH. reflexivity.
Qed.

Lemma output_record_Ok (issue : string) (blocked_info : BlockingRecord) :
  output_record (issue, blocked_info)
  = MkM ((if truthy (is_blocked_by blocked_info) then [] else [Print (node issue true)])
         ++ flat_map (fun out_issue => [Print (node out_issue false);
                                        Print (edge issue out_issue)])
                     (blocks blocked_info))
        (Some (Ok tt)).
Proof.
  unfold output_record. rewrite for_each_Ok by reflexivity.
  destruct (truthy (is_blocked_by blocked_info)); reflexivity.
Qed.

Lemma output_Ok (blocked : gmap string BlockingRecord) :
  output blocked
  = MkM (Print header
         :: flat_map (fun item => trace (output_record item)) (map_to_list blocked)
         ++ [Print "}"])
        (Some (Ok tt)).
Proof.
  unfold output. rewrite bind_print, for_each_Ok.
  - reflexivity.
  - intros [issue blocked_info]. now rewrite output_record_Ok.
Qed.

Lemma In_map_to_list (blocked : gmap string BlockingRecord) (k : string)
    (r : BlockingRecord) :
  In (k, r) (map_to_list blocked) <-> blocked !! k = Some r.
Proof. rewrite <- list_elem_of_In. apply elem_of_map_to_list. Qed.

(** C6: [output] prints, for every record whose 'is-blocked-by' list is
    empty, the node of the record's key with the triangle marker, and for
    every target of a 'blocks' list a node without shape attribute; nothing
    else is printed with the marker. *)
Theorem output_node_shapes (blocked : gmap string BlockingRecord) :
  outcome (output blocked) = Some (Ok tt)
  /\ (forall s, node s true = DQ +:+ s +:+ DQ +:+ " [ shape = triangle ]"
                /\ node s false = DQ +:+ s +:+ DQ +:+ " ")
  /\ (forall k r, blocked !! k = Some r -> is_blocked_by r = [] ->
        In (Print (node k true)) (trace (output blocked)))
  /\ (forall k r t, blocked !! k = Some r -> In t (blocks r) ->
        In (Print (node t false)) (trace (output blocked)))
  /\ (forall ev, In ev (trace (output blocked)) ->
        ev = Print header
        \/ ev = Print "}"
        \/ (exists k r, blocked !! k = Some r /\ is_blocked_by r = []
                        /\ ev = Print (node k true))
        \/ (exists k r t, blocked !! k = Some r /\ In t (blocks r)
                          /\ (ev = Print (node t false) \/ ev = Print (edge k t)))).
Proof.
  rewrite output_Ok. cbn [trace outcome].
  split; [reflexivity | split; [now split | split; [|split]]].
  - intros k r Hk Hempty. right. apply in_or_app. left.
    apply in_flat_map. exists (k, r). split; [now apply In_map_to_list|].
    rewrite output_record_Ok. cbn [trace]. rewrite Hempty. now left.
  - intros k r t Hk Ht. right. apply in_or_app. left.
    apply in_flat_map. exists (k, r). split; [now apply In_map_to_list|].
    rewrite output_record_Ok. cbn [trace]. apply in_or_app. right.
    apply in_flat_map. exists t. split; [exact Ht | now left].
  - intros ev [<- | Hev]; [now left|].
    apply in_app_or in Hev. destruct Hev as [Hev | [<- | []]]; [|right; now left].
    apply in_flat_map in Hev. destruct Hev as ([k r] & Hkr & Hev).
    apply In_map_to_list in Hkr.
    rewrite output_record_Ok in Hev. cbn [trace] in Hev.
    apply in_app_or in Hev. destruct Hev as [Hev | Hev].
    + right; right; left. exists k, r.
      destruct (is_blocked_by r); cbn in Hev; [|contradiction].
      destruct Hev as [<- | []]. now repeat split.
    + right; right; right. apply in_flat_map in Hev.
      destruct Hev as (t & Ht & [<- | [<- | []]]); exists k, r, t; auto.
Qed.

(** ** Fetching *)

(** What one call of [component_issues] does once its loop is given at
    least one round. *)
Lemma component_issues_eq (fuel : nat) (self : JIRA) (project : string)
    (component : option string) :
  let query := jql project component in
  let chunk := map (jira_issue self) (search_issues self query 0 MAX_ISSUES) in
  component_issues (S fuel) self project component
  = MkM [Print ("# JQL: " +:+ query);
         Search query 0 MAX_ISSUES;
         Print ("# Found " +:+ format_nat (length chunk) +:+ " matching issues.")]
        (Some (Ok chunk)).
Proof. reflexivity. Qed.

(** C8: [component_issues] sends one search request, for the chunk that
    starts at 0 and holds at most [MAX_ISSUES] = 1000 issues, leaves the loop
    and returns that chunk; of a longer answer only the first 1000 issues are
    returned. *)
Theorem component_issues_first_chunk_only (fuel : nat) (self : JIRA) (project : string)
    (component : option string) :
  0 < fuel ->
  let query := jql project component in
  let chunk := map (jira_issue self) (search_issues self query 0 MAX_ISSUES) in
  MAX_ISSUES = 1000
  /\ component_issues fuel self project component
     = MkM [Print ("# JQL: " +:+ query);
            Search query 0 MAX_ISSUES;
            Print ("# Found " +:+ format_nat (length chunk) +:+ " matching issues.")]
           (Some (Ok chunk))
  /\ (forall matching : list Issue,
        (forall start_at max_results,
            search_issues self query start_at max_results
            = firstn max_results (skipn start_at matching)) ->
        chunk = map (jira_issue self) (firstn 1000 matching)
        /\ length chunk <= 1000).
Proof.
  intros Hfuel query chunk. destruct fuel as [|fuel]; [lia|].
  split; [reflexivity | split; [apply component_issues_eq|]].
  intros matching Hpaged. subst chunk. rewrite Hpaged.
  split; [reflexivity|].
  rewrite length_map. apply firstn_le_length.
Qed.

(** ** Main method *)

(** What [run] does once the loops are given at least one round: three
    fetches, then the linker and the renderer. *)
Lemma run_eq (Issue_eq : Issue -> Issue -> bool) (fuel : nat) (jira : JIRA)
    (project : string) (component : option string) :
  let chunk query := map (jira_issue jira) (search_issues jira query 0 MAX_ISSUES) in
  let found query :=
    [Print ("# JQL: " +:+ query);
     Search query 0 MAX_ISSUES;
     Print ("# Found " +:+ format_nat (length (chunk query)) +:+ " matching issues.")] in
  let all_issues := chunk ("project=" +:+ project) ++ chunk "project=TFAPD" in
  let issues_to_check := chunk (jql project component) in
  run Issue_eq (S fuel) jira project component
  = (MkM (found ("project=" +:+ project) ++ found "project=TFAPD"
          ++ found (jql project component)
          ++ [Print ("# " +:+ format_nat (length issues_to_check) +:+ " in "
                     +:+ format_component component)])
         (Some (Ok tt)) ;;
     blocked ← lift (get_blocked Issue_eq issues_to_check all_issues component);
     output blocked).
Proof. reflexivity. Qed.

(** C9: whatever the project argument, [run] resolves link targets against
    the issues of the requested project followed by the issues of project
    'TFAPD'. *)
Theorem run_all_issues_with_TFAPD (Issue_eq : Issue -> Issue -> bool) (fuel : nat)
    (jira : JIRA) (project : string) (component : option string) :
  0 < fuel ->
  let chunk query := map (jira_issue jira) (search_issues jira query 0 MAX_ISSUES) in
  let found query :=
    [Print ("# JQL: " +:+ query);
     Search query 0 MAX_ISSUES;
     Print ("# Found " +:+ format_nat (length (chunk query)) +:+ " matching issues.")] in
  let all_issues := chunk ("project=" +:+ project) ++ chunk "project=TFAPD" in
  let issues_to_check := chunk (jql project component) in
  run Issue_eq fuel jira project component
  = (MkM (found ("project=" +:+ project) ++ found "project=TFAPD"
          ++ found (jql project component)
          ++ [Print ("# " +:+ format_nat (length issues_to_check) +:+ " in "
                     +:+ format_component component)])
         (Some (Ok tt)) ;;
     blocked ← lift (get_blocked Issue_eq issues_to_check all_issues component);
     output blocked).
Proof.
  intros Hfuel. destruct fuel as [|fuel]; [lia|]. apply run_eq.
Qed.

Lemma string_length_append (s1 s2 : string) :
  String.length (s1 +:+ s2) = String.length s1 + String.length s2.
Proof. induction s1 as [|ch s1 IH]; simpl; [reflexivity | now f_equal]. Qed.

(** The quoted component is never the raw argument. *)
Lemma quoted_neq (raw : string) : DQ +:+ raw +:+ DQ <> raw.
Proof.
  intros H. apply (f_equal String.length) in H.
  rewrite !string_length_append in H. cbn in H. lia.
Qed.

(** ** The script on the sample tracker *)

Example get_blocked_sample :
  get_blocked Sample.key_eq Sample.component_X Sample.project_P (Some "X")
  = Ok Sample.expected.
Proof. vm_compute. reflexivity. Qed.

Example main_sample :
  main Sample.key_eq 1 Sample.connect "secret" Sample.argv
  = MkM [Print "# JQL: project=P";
         Search "project=P" 0 1000;
         Print "# Found 8 matching issues.";
         Print "# JQL: project=TFAPD";
         Search "project=TFAPD" 0 1000;
         Print "# Found 0 matching issues.";
         Print ("# JQL: project=P AND component=" +:+ DQ +:+ "X" +:+ DQ);
         Search ("project=P AND component=" +:+ DQ +:+ "X" +:+ DQ) 0 1000;
         Print "# Found 5 matching issues.";
         Print ("# 5 in " +:+ DQ +:+ "X" +:+ DQ);
         Print header;
         Print (DQ +:+ "P-7" +:+ DQ +:+ " [ shape = triangle ]");
         Print (DQ +:+ "P-8" +:+ DQ +:+ " ");
         Print (DQ +:+ "P-7" +:+ DQ +:+ "  -> " +:+ DQ +:+ "P-8" +:+ DQ +:+ " ;");
         Print (DQ +:+ "P-2" +:+ DQ +:+ " ");
         Print (DQ +:+ "P-1" +:+ DQ +:+ "  -> " +:+ DQ +:+ "P-2" +:+ DQ +:+ " ;");
         Print "}"]
        (Some (Ok tt)).
Proof. vm_compute. reflexivity. Qed.

(** Without arguments the script prints its usage and exits with code 42. *)
Example main_usage :
  main Sample.key_eq 1 Sample.connect "secret" ["jirablockers.py"; "user"; "server"]
  = MkM [Print "jirablockers.py <user> <server> <project> <component>"]
        (Some (Raise (SystemExit 42))).
Proof. vm_compute. reflexivity. Qed.

(** A link to a key that no fetched issue has ends the run. *)
Example get_blocked_dangling :
  get_blocked Sample.key_eq [Sample.g] [Sample.a; Sample.g] (Some "X")
  = Raise IndexError.
Proof. vm_compute. reflexivity. Qed.

(** ** The theorems at the sample tracker *)

Lemma get_blocked_blocks_nonempty_witness :
  blocks {| blocks := ["P-2"]; is_blocked_by := ["P-3"] |} <> [].
Proof.
  apply (get_blocked_blocks_nonempty Sample.key_eq Sample.component_X Sample.project_P
           (Some "X") Sample.expected "P-1").
  - vm_compute. reflexivity.
  - vm_compute. reflexivity.
Defined.

Lemma relevant_resolved_false_witness : relevant Sample.d (Some "X") = false.
Proof.
  apply (relevant_resolved_false Sample.d (Some "X")).
  simpl. right. right. right. left. reflexivity.
Defined.

Lemma relevant_iff_priority_or_severity_witness :
  relevant Sample.c (Some "Y") = true <->
  (name (f_priority (fields Sample.c)) = "High"
   \/ name (f_priority (fields Sample.c)) = "Highest"
   \/ exists severity, f_severity (fields Sample.c) = Some severity
                       /\ name severity = "Major").
Proof.
  apply (relevant_iff_priority_or_severity Sample.c (Some "Y")).
  - simpl. intros [H | [H | [H | [H | []]]]]; discriminate H.
  - intros c0 [= <-]. simpl. intros [H | []]. discriminate H.
Defined.

Lemma relevant_own_component_false_witness : relevant Sample.f (Some "X") = false.
Proof.
  apply (relevant_own_component_false Sample.f "X").
  simpl. left. reflexivity.
Defined.

Lemma output_node_shapes_witness :
  In (Print (DQ +:+ "P-7" +:+ DQ +:+ " [ shape = triangle ]"))
     (trace (output Sample.expected))
  /\ In (Print (DQ +:+ "P-2" +:+ DQ +:+ " ")) (trace (output Sample.expected)).
Proof.
  destruct (output_node_shapes Sample.expected) as (_ & _ & Hown & Htarget & _).
  split.
  - apply (Hown "P-7" {| blocks := ["P-8"]; is_blocked_by := [] |});
      [vm_compute|]; reflexivity.
  - apply (Htarget "P-1" {| blocks := ["P-2"]; is_blocked_by := ["P-3"] |});
      [vm_compute; reflexivity | simpl; left; reflexivity].
Defined.

Lemma get_issue_first_or_IndexError_witness :
  get_issue "P-2" Sample.project_P = Ok Sample.b
  /\ get_issue "P-9" [Sample.a; Sample.b] = Raise IndexError.
Proof.
  split.
  - apply (proj1 (get_issue_first_or_IndexError "P-2" Sample.project_P)
             [Sample.a] Sample.b
             [Sample.c; Sample.d; Sample.e; Sample.f; Sample.g; Sample.h]).
    + reflexivity.
    + reflexivity.
    + simpl. intros y [<- | []]. discriminate.
  - apply (proj1 (proj2 (get_issue_first_or_IndexError "P-9" [Sample.a; Sample.b]))).
    simpl. intros y [<- | [<- | []]]; discriminate.
Defined.

Lemma component_issues_first_chunk_only_witness :
  component_issues 1 Sample.crowded "P" None
  = MkM [Print "# JQL: project=P";
         Search "project=P" 0 1000;
         Print "# Found 1000 matching issues."]
        (Some (Ok (repeat Sample.a 1000))).
Proof.
  destruct (component_issues_first_chunk_only 1 Sample.crowded "P" None)
    as (_ & Heq & Hpaged); [lia|].
  destruct (Hpaged (repeat Sample.a 1200)) as [Hchunk _]; [reflexivity|].
  rewrite Heq, Hchunk. vm_compute. reflexivity.
Defined.

Lemma run_all_issues_with_TFAPD_witness :
  let X := DQ +:+ "X" +:+ DQ in
  run Sample.key_eq 1 Sample.tracker "P" (Some X)
  = (MkM [Print "# JQL: project=P";
          Search "project=P" 0 1000;
          Print "# Found 8 matching issues.";
          Print "# JQL: project=TFAPD";
          Search "project=TFAPD" 0 1000;
          Print "# Found 0 matching issues.";
          Print ("# JQL: project=P AND component=" +:+ X);
          Search ("project=P AND component=" +:+ X) 0 1000;
          Print "# Found 5 matching issues.";
          Print ("# 5 in " +:+ X)]
         (Some (Ok tt)) ;;
     blocked ← lift (get_blocked Sample.key_eq Sample.component_X
                                 (Sample.project_P ++ []) (Some X));
     output blocked).
Proof.
  intros X.
  rewrite (run_all_issues_with_TFAPD Sample.key_eq 1 Sample.tracker "P" (Some X));
    [|lia].
  vm_compute. reflexivity.
Defined.

(** ** More on the blocker linker *)

Lemma get_issue_Raise_inv (k : string) (issues : list Issue) (e : exn) :
  get_issue k issues = Raise e ->
  e = IndexError /\ forall y, In y issues -> key y <> k.
Proof.
  unfold get_issue.
  destruct (List.filter _ issues) as [|x rest] eqn:Hf; [|discriminate].
  intros [= <-]. split; [reflexivity|].
  intros y Hy Hk.
  assert (Hin : In y (List.filter (fun issue => String.eqb (key issue) k) issues)).
  { apply List.filter_In. split; [exact Hy | now apply String.eqb_eq]. }
  now rewrite Hf in Hin.
Qed.

Lemma get_issue_absent (k : string) (issues : list Issue) :
  (forall y, In y issues -> key y <> k) -> get_issue k issues = Raise IndexError.
Proof. intros Hno. unfold get_issue. now rewrite (filter_key_nil k issues Hno). Qed.

Lemma get_issue_present (k : string) (issues : list Issue) :
  (exists t, In t issues /\ key t = k) -> exists x, get_issue k issues = Ok x.
Proof.
  intros (t & Ht & Hk).
  destruct (get_issue k issues) as [x|e] eqn:Hget; [now exists x|].
  apply get_issue_Raise_inv in Hget. destruct Hget as [_ Hno].
  now destruct (Hno t Ht).
Qed.

(** A loop raises what its body raises. *)
Lemma fold_result_Raise_inv {A S : Type} (P : exn -> Prop) (body : A -> S -> result S)
    (l : list A) :
  (forall x s e, In x l -> body x s = Raise e -> P e) ->
  forall s e, fold_result body l s = Raise e -> P e.
Proof.
  induction l as [|x l IH]; intros Hbody s e Hfold; [discriminate|].
  cbn in Hfold. destruct (body x s) as [s1|e1] eqn:Hx; cbn in Hfold.
  - apply (IH (fun y t e' Hy => Hbody y t e' (or_intror Hy)) s1 e Hfold).
  - injection Hfold as <-. apply (Hbody x s e1); [now left | exact Hx].
Qed.

(** A round that raises [e] in every state makes the loop raise, if no
    round can raise anything else. *)
Lemma fold_result_Raise {A S : Type} (body : A -> S -> result S) (l : list A)
    (x : A) (e : exn) :
  In x l ->
  (forall s, body x s = Raise e) ->
  (forall y s e', In y l -> body y s = Raise e' -> e' = e) ->
  forall s, fold_result body l s = Raise e.
Proof.
  intros Hx Hraise. induction l as [|y l IH]; intros Honly s; [destruct Hx|].
  cbn. destruct (body y s) as [s1|e1] eqn:Hy; cbn.
  - destruct Hx as [-> | Hx]; [now rewrite Hraise in Hy|].
    apply IH; [exact Hx|]. intros z t e' Hz. apply Honly. now right.
  - f_equal. apply (Honly y s e1); [now left | exact Hy].
Qed.

Lemma relevant_true_inv (issue : Issue) (component : option string) :
  relevant issue component = true ->
  ~ In (name (f_status (fields issue))) ["Done"; "Resolved"; "Fertig"; "Closed"]
  /\ (forall c, component = Some c -> ~ In c (components issue))
  /\ (In (name (f_priority (fields issue))) ["High"; "Highest"]
      \/ exists severity, f_severity (fields issue) = Some severity
                          /\ name severity = "Major").
Proof.
  unfold relevant, resolved.
  destruct (str_in (name (f_status (fields issue))) _) eqn:Hst; [discriminate|].
  destruct (component_in component (components issue)) eqn:Hc; [discriminate|].
  intros H. apply orb_true_iff in H.
  split; [now apply str_in_false | split].
  - intros c ->. now apply str_in_false.
  - destruct H as [H | H]; [left; now apply str_in_In|].
    right. destruct (f_severity (fields issue)) as [sev|]; [|discriminate].
    exists sev. split; [reflexivity|].
    apply str_in_In in H. now destruct H as [H | []].
Qed.

(** Two issues of a list with unique keys that have the same key are the
    same issue. *)
Lemma unique_key_same (l : list Issue) (x y : Issue) :
  List.NoDup (map key l) -> In x l -> In y l -> key x = key y -> x = y.
Proof.
  induction l as [|z l IH]; intros Hnodup Hx Hy Hkey; [destruct Hx|].
  cbn in Hnodup. apply List.NoDup_cons_iff in Hnodup. destruct Hnodup as [Hfresh Hnodup].
  destruct Hx as [-> | Hx], Hy as [-> | Hy]; [reflexivity | | |now apply IH].
  - exfalso. apply Hfresh. rewrite Hkey. now apply in_map.
  - exfalso. apply Hfresh. rewrite <- Hkey. now apply in_map.
Qed.

Section LinkerMore.

Variable Issue_eq : Issue -> Issue -> bool.

Lemma link_body_Raise_inv check_issues all_issues component link acc (e : exn) :
  link_body Issue_eq check_issues all_issues component link acc = Raise e ->
  e = IndexError.
Proof.
  destruct acc as [outs ins]. unfold link_body.
  destruct (String.eqb (name (link_type link)) "Blocks"); [|discriminate].
  assert (Hin : forall outs' : list string,
             match inwardIssue link with
             | Some ref =>
                 inward_issue ← get_issue (ref_key ref) all_issues;
                 if relevant inward_issue None
                 then Ok (outs', ins ++ [key inward_issue])
                 else Ok (outs', ins)
             | None => Ok (outs', ins)
             end = Raise e -> e = IndexError).
  { intros outs'. destruct (inwardIssue link) as [iref|]; [|discriminate].
    destruct (get_issue (ref_key iref) all_issues) as [t|e'] eqn:Ht; cbn.
    - destruct (relevant t None); discriminate.
    - intros [= <-]. now apply get_issue_Raise_inv in Ht. }
  destruct (outwardIssue link) as [oref|]; [|apply Hin].
  destruct (get_issue (ref_key oref) all_issues) as [o|e'] eqn:Ho; cbn.
  - destruct (issue_in Issue_eq o check_issues); [discriminate|].
    destruct (relevant o component); apply Hin.
  - intros [= <-]. now apply get_issue_Raise_inv in Ho.
Qed.

Lemma issue_body_Raise_inv check_issues all_issues component issue
    (blocked : gmap string BlockingRecord) (e : exn) :
  issue_body Issue_eq check_issues all_issues component issue blocked = Raise e ->
  e = IndexError.
Proof.
  unfold issue_body. destruct (resolved issue); [discriminate|].
  destruct (fold_result (link_body _ _ _ _) _ _) as [[outs ins]|e'] eqn:Hlinks; cbn.
  - destruct (truthy outs); discriminate.
  - intros [= <-].
    apply (fold_result_Raise_inv (fun e0 => e0 = IndexError) _ _
             (fun link acc e0 _ => link_body_Raise_inv _ _ _ link acc e0) _ _ Hlinks).
Qed.

Lemma get_blocked_keys_sound check_issues all_issues component
    (blocked : gmap string BlockingRecord) (k : string) (r : BlockingRecord) :
  get_blocked Issue_eq check_issues all_issues component = Ok blocked ->
  blocked !! k = Some r ->
  exists issue, In issue check_issues /\ key issue = k /\ resolved issue = false.
Proof.
  intros Hget. revert k r. unfold get_blocked in Hget.
  eapply (fold_result_invariant
            (fun m : gmap string BlockingRecord => forall k r, m !! k = Some r ->
               exists issue, In issue check_issues /\ key issue = k
                             /\ resolved issue = false));
    [| |exact Hget].
  - intros issue m m' Hissue Hm. unfold issue_body.
    destruct (resolved issue) eqn:Hres; [now intros [= <-]|].
    destruct (fold_result (link_body _ _ _ _) _ _) as [[outs ins]|e]; [|discriminate].
    cbn. destruct (truthy outs); intros [= <-]; [|exact Hm].
    intros k r. rewrite lookup_insert. case_decide; [|apply Hm].
    intros _. now exists issue.
  - intros k r. now rewrite lookup_empty.
Qed.

(** X1: every key of the dictionary returned by [get_blocked] is the key
    of an unresolved issue of [check_issues]. *)
Theorem get_blocked_keys_from_unresolved check_issues all_issues component
    (blocked : gmap string BlockingRecord) (k : string) (r : BlockingRecord) :
  get_blocked Issue_eq check_issues all_issues component = Ok blocked ->
  blocked !! k = Some r ->
  exists issue, In issue check_issues
                /\ key issue = k
                /\ ~ In (name (f_status (fields issue)))
                        ["Done"; "Resolved"; "Fertig"; "Closed"].
Proof.
  intros Hget Hk.
  destruct (get_blocked_keys_sound _ _ _ _ _ _ Hget Hk) as (issue & Hin & Hkey & Hres).
  exists issue. split; [exact Hin | split; [exact Hkey|]].
  exact (proj1 (str_in_false (name (f_status (fields issue)))
                             ["Done"; "Resolved"; "Fertig"; "Closed"]) Hres).
Qed.

(** X2: every key under 'blocks' resolves, in [all_issues], to an issue
    that is not found in [check_issues], is unresolved, is outside the
    component, and has priority High or Highest or severity Major. *)
Theorem get_blocked_blocks_targets check_issues all_issues component
    (blocked : gmap string BlockingRecord) (k k' : string) (r : BlockingRecord) :
  get_blocked Issue_eq check_issues all_issues component = Ok blocked ->
  blocked !! k = Some r ->
  In k' (blocks r) ->
  exists target,
    get_issue k' all_issues = Ok target
    /\ issue_in Issue_eq target check_issues = false
    /\ ~ In (name (f_status (fields target))) ["Done"; "Resolved"; "Fertig"; "Closed"]
    /\ (forall c, component = Some c -> ~ In c (components target))
    /\ (In (name (f_priority (fields target))) ["High"; "Highest"]
        \/ exists severity, f_severity (fields target) = Some severity
                            /\ name severity = "Major").
Proof.
  intros Hget Hk Hk'.
  destruct (get_blocked_records_sound Issue_eq _ _ _ _ _ _ Hget Hk) as [Houts _].
  destruct (Houts k' Hk') as (t & Ht & Hnotin & Hrel).
  exists t. split; [exact Ht | split; [exact Hnotin|]].
  now apply relevant_true_inv.
Qed.

(** X3: every key under 'is-blocked-by' resolves, in [all_issues], to an
    unresolved issue with priority High or Highest or severity Major;
    neither its components nor [check_issues] are consulted. *)
Theorem get_blocked_inward_targets check_issues all_issues component
    (blocked : gmap string BlockingRecord) (k k' : string) (r : BlockingRecord) :
  get_blocked Issue_eq check_issues all_issues component = Ok blocked ->
  blocked !! k = Some r ->
  In k' (is_blocked_by r) ->
  exists target,
    get_issue k' all_issues = Ok target
    /\ relevant target None = true
    /\ ~ In (name (f_status (fields target))) ["Done"; "Resolved"; "Fertig"; "Closed"]
    /\ (In (name (f_priority (fields target))) ["High"; "Highest"]
        \/ exists severity, f_severity (fields target) = Some severity
                            /\ name severity = "Major").
Proof.
  intros Hget Hk Hk'.
  destruct (get_blocked_records_sound Issue_eq _ _ _ _ _ _ Hget Hk) as [_ Hins].
  destruct (Hins k' Hk') as (t & Ht & Hrel).
  exists t. split; [exact Ht | split; [exact Hrel|]].
  destruct (relevant_true_inv t None Hrel) as (Hst & _ & Hprio). now split.
Qed.

(** X4: when every issue of [check_issues] is resolved or has no link of
    type "Blocks", [get_blocked] looks nothing up and returns the empty
    dictionary, whatever [all_issues] holds. *)
Theorem get_blocked_nothing_to_link check_issues all_issues component :
  (forall issue, In issue check_issues ->
     In (name (f_status (fields issue))) ["Done"; "Resolved"; "Fertig"; "Closed"]
     \/ forall link, In link (f_issuelinks (fields issue)) ->
                     name (link_type link) <> "Blocks") ->
  get_blocked Issue_eq check_issues all_issues component = Ok ∅.
Proof.
  intros Hall. unfold get_blocked.
  assert (Hfold : forall l m,
             (forall issue, In issue l -> In issue check_issues) ->
             fold_result (issue_body Issue_eq check_issues all_issues component) l m
             = Ok m).
  { induction l as [|issue l IH]; intros m Hsub; [reflexivity|].
    cbn [fold_result].
    assert (Hbody : issue_body Issue_eq check_issues all_issues component issue m
                    = Ok m).
    { unfold issue_body.
      destruct (Hall issue (Hsub issue (or_introl eq_refl))) as [Hres | Hlinks].
      - apply str_in_In in Hres. unfold resolved. now rewrite Hres.
      - destruct (resolved issue); [reflexivity|].
        assert (Hskip : forall links acc,
                   (forall link, In link links -> name (link_type link) <> "Blocks") ->
                   fold_result (link_body Issue_eq check_issues all_issues component)
                               links acc = Ok acc).
        { induction links as [|link links IHl]; intros acc Hno; [reflexivity|].
          cbn [fold_result].
          assert (Hstep : link_body Issue_eq check_issues all_issues component link acc
                          = Ok acc).
          { unfold link_body. destruct acc as [outs ins].
            destruct (String.eqb_spec (name (link_type link)) "Blocks") as [Heq | _];
              [|reflexivity].
            now destruct (Hno link (or_introl eq_refl)). }
          rewrite Hstep. cbn. apply IHl. intros l' Hl'. apply Hno. now right. }
        now rewrite (Hskip _ _ Hlinks). }
    rewrite Hbody. cbn. apply IH. intros i Hi. apply Hsub. now right. }
  now apply Hfold.
Qed.

(** X5: a "Blocks" link of an unresolved issue of [check_issues] whose
    outward key, or whose inward key when the link has no outward issue, is
    the key of no issue of [all_issues] makes [get_blocked] raise
    [IndexError]. *)
Theorem get_blocked_dangling_link check_issues all_issues component
    (issue : Issue) (link : IssueLink) (ref : IssueRef) :
  In issue check_issues ->
  ~ In (name (f_status (fields issue))) ["Done"; "Resolved"; "Fertig"; "Closed"] ->
  In link (f_issuelinks (fields issue)) ->
  name (link_type link) = "Blocks" ->
  outwardIssue link = Some ref
  \/ (outwardIssue link = None /\ inwardIssue link = Some ref) ->
  (forall y, In y all_issues -> key y <> ref_key ref) ->
  get_blocked Issue_eq check_issues all_issues component = Raise IndexError.
Proof.
  intros Hissue Hst Hlink Hty Href Habsent.
  apply str_in_false in Hst.
  pose proof (get_issue_absent _ _ Habsent) as Hget.
  assert (Hl : forall acc,
             link_body Issue_eq check_issues all_issues component link acc
             = Raise IndexError).
  { intros [outs ins]. unfold link_body. rewrite Hty. cbn.
    destruct Href as [-> | [-> ->]]; now rewrite Hget. }
  assert (Hi : forall m,
             issue_body Issue_eq check_issues all_issues component issue m
             = Raise IndexError).
  { intros m. unfold issue_body. fold (resolved issue) in Hst. rewrite Hst.
    rewrite (fold_result_Raise _ _ link IndexError Hlink Hl); [reflexivity|].
    intros l' acc e' _. apply link_body_Raise_inv. }
  unfold get_blocked. apply (fold_result_Raise _ _ issue IndexError Hissue Hi).
  intros i m e' _. apply issue_body_Raise_inv.
Qed.

(** A property that one round establishes and the other rounds keep holds
    at the end of the loop. *)
Lemma fold_result_reaches {A S : Type} (Q : S -> Prop) (body : A -> S -> result S)
    (l : list A) (x : A) :
  In x l ->
  (forall s s', body x s = Ok s' -> Q s') ->
  (forall y s s', Q s -> body y s = Ok s' -> Q s') ->
  forall s s', fold_result body l s = Ok s' -> Q s'.
Proof.
  intros Hx Hest Hkeep. induction l as [|y l IH]; intros s s' Hfold; [destruct Hx|].
  cbn in Hfold. destruct (body y s) as [s1|e] eqn:Hy; [|discriminate]. cbn in Hfold.
  destruct Hx as [-> | Hx].
  - apply (fold_result_invariant Q body l (fun z t t' _ => Hkeep z t t') s1 s');
      [now apply (Hest s) | exact Hfold].
  - now apply (IH Hx s1).
Qed.

(** The two lists only grow. *)
Lemma link_body_grows check_issues all_issues component link
    (acc acc' : list string * list string) :
  link_body Issue_eq check_issues all_issues component link acc = Ok acc' ->
  (forall k, In k (fst acc) -> In k (fst acc'))
  /\ (forall k, In k (snd acc) -> In k (snd acc')).
Proof.
  destruct acc as [outs ins]. unfold link_body.
  assert (Hin : forall outs' : list string,
             (forall k, In k outs -> In k outs') ->
             match inwardIssue link with
             | Some ref =>
                 inward_issue ← get_issue (ref_key ref) all_issues;
                 if relevant inward_issue None
                 then Ok (outs', ins ++ [key inward_issue])
                 else Ok (outs', ins)
             | None => Ok (outs', ins)
             end = Ok acc' ->
             (forall k, In k outs -> In k (fst acc'))
             /\ (forall k, In k ins -> In k (snd acc'))).
  { intros outs' Hsub. destruct (inwardIssue link) as [iref|].
    - destruct (get_issue (ref_key iref) all_issues) as [t|e]; cbn; [|discriminate].
      destruct (relevant t None); intros [= <-]; cbn; split; auto.
      intros k Hk. apply in_or_app. now left.
    - intros [= <-]. cbn. split; auto. }
  destruct (String.eqb (name (link_type link)) "Blocks");
    [|intros [= <-]; cbn; split; auto].
  destruct (outwardIssue link) as [oref|]; [|apply Hin; auto].
  destruct (get_issue (ref_key oref) all_issues) as [o|e]; cbn; [|discriminate].
  destruct (issue_in Issue_eq o check_issues); [intros [= <-]; cbn; split; auto|].
  destruct (relevant o component); apply Hin; auto.
  intros k Hk. apply in_or_app. now left.
Qed.

(** A qualifying outward link puts the key of its target in the outward
    list. *)
Lemma link_body_outward_recorded check_issues all_issues component link ref target
    (acc acc' : list string * list string) :
  name (link_type link) = "Blocks" ->
  outwardIssue link = Some ref ->
  get_issue (ref_key ref) all_issues = Ok target ->
  issue_in Issue_eq target check_issues = false ->
  relevant target component = true ->
  link_body Issue_eq check_issues all_issues component link acc = Ok acc' ->
  In (key target) (fst acc').
Proof.
  intros Hty Hout Hget Hnotin Hrel. destruct acc as [outs ins].
  unfold link_body. rewrite Hty, Hout. cbn. rewrite Hget. cbn. rewrite Hnotin, Hrel.
  destruct (inwardIssue link) as [iref|].
  - destruct (get_issue (ref_key iref) all_issues) as [t|e]; cbn; [|discriminate].
    destruct (relevant t None); intros [= <-]; cbn; apply in_or_app; right; now left.
  - intros [= <-]. cbn. apply in_or_app. right. now left.
Qed.

(** A qualifying inward link puts the key of its target in the inward
    list. *)
Lemma link_body_inward_recorded check_issues all_issues component link ref target
    (acc acc' : list string * list string) :
  name (link_type link) = "Blocks" ->
  outwardIssue link = None ->
  inwardIssue link = Some ref ->
  get_issue (ref_key ref) all_issues = Ok target ->
  relevant target None = true ->
  link_body Issue_eq check_issues all_issues component link acc = Ok acc' ->
  In (key target) (snd acc').
Proof.
  intros Hty Hout Hin Hget Hrel. destruct acc as [outs ins].
  unfold link_body. rewrite Hty, Hout, Hin. cbn. rewrite Hget. cbn. rewrite Hrel.
  intros [= <-]. cbn. apply in_or_app. right. now left.
Qed.

Lemma issue_body_other_key check_issues all_issues component issue
    (m m' : gmap string BlockingRecord) (k : string) :
  key issue <> k ->
  issue_body Issue_eq check_issues all_issues component issue m = Ok m' ->
  m' !! k = m !! k.
Proof.
  intros Hne. unfold issue_body. destruct (resolved issue); [now intros [= <-]|].
  destruct (fold_result (link_body _ _ _ _) _ _) as [[outs ins]|e]; [|discriminate].
  cbn. destruct (truthy outs); intros [= <-]; [|reflexivity].
  now apply lookup_insert_ne.
Qed.

(** With unique keys in the list, the entry of an unresolved issue is the
    one its own links produce. *)
Lemma fold_issue_body_lookup check_issues all_issues component (issue : Issue)
    (l : list Issue) :
  List.NoDup (map key l) ->
  In issue l ->
  resolved issue = false ->
  forall m blocked,
    fold_result (issue_body Issue_eq check_issues all_issues component) l m = Ok blocked ->
    exists outs ins,
      fold_result (link_body Issue_eq check_issues all_issues component)
                  (f_issuelinks (fields issue)) ([], []) = Ok (outs, ins)
      /\ blocked !! key issue
         = if truthy outs
           then Some {| blocks := outs; is_blocked_by := ins |}
           else m !! key issue.
Proof.
  intros Hnodup Hin Hres. induction l as [|y l IH]; intros m blocked Hfold;
    [destruct Hin|].
  cbn in Hfold. cbn in Hnodup. apply List.NoDup_cons_iff in Hnodup.
  destruct Hnodup as [Hfresh Hnodup].
  destruct (issue_body Issue_eq check_issues all_issues component y m) as [m1|e] eqn:Hy;
    [|discriminate].
  cbn in Hfold. destruct Hin as [-> | Hin].
  - assert (Hkeep : blocked !! key issue = m1 !! key issue).
    { apply (fold_result_invariant (fun m' : gmap string BlockingRecord =>
               m' !! key issue = m1 !! key issue)
               (issue_body Issue_eq check_issues all_issues component) l)
        with (s := m1); [|reflexivity | exact Hfold].
      intros z t t' Hz Ht Hbody. rewrite <- Ht.
      eapply issue_body_other_key; [|exact Hbody].
      intros Heq. apply Hfresh. rewrite <- Heq. now apply in_map. }
    unfold issue_body in Hy. rewrite Hres in Hy.
    destruct (fold_result (link_body _ _ _ _) _ _) as [[outs ins]|e]; [|discriminate].
    exists outs, ins. split; [reflexivity|]. rewrite Hkeep. cbn in Hy.
    destruct (truthy outs); injection Hy as <-; [apply lookup_insert_eq | reflexivity].
  - destruct (IH Hnodup Hin m1 blocked Hfold) as (outs & ins & Hlinks & Hlook).
    exists outs, ins. split; [exact Hlinks|]. rewrite Hlook.
    destruct (truthy outs); [reflexivity|].
    eapply issue_body_other_key; [|exact Hy].
    intros Heq. apply Hfresh. rewrite Heq. now apply in_map.
Qed.

(** X8: with unique keys in [check_issues], an unresolved issue with a
    "Blocks" link to a target that is not found in [check_issues] and is
    relevant for the component has a record, and the record lists the key of
    the target under 'blocks'. *)
Theorem get_blocked_outward_recorded check_issues all_issues component
    (blocked : gmap string BlockingRecord) (issue target : Issue)
    (link : IssueLink) (ref : IssueRef) :
  List.NoDup (map key check_issues) ->
  In issue check_issues ->
  ~ In (name (f_status (fields issue))) ["Done"; "Resolved"; "Fertig"; "Closed"] ->
  In link (f_issuelinks (fields issue)) ->
  name (link_type link) = "Blocks" ->
  outwardIssue link = Some ref ->
  get_issue (ref_key ref) all_issues = Ok target ->
  issue_in Issue_eq target check_issues = false ->
  relevant target component = true ->
  get_blocked Issue_eq check_issues all_issues component = Ok blocked ->
  exists r, blocked !! key issue = Some r /\ In (ref_key ref) (blocks r).
Proof.
  intros Hnodup Hissue Hst Hlink Hty Hout Hget Hnotin Hrel Hblocked.
  apply str_in_false in Hst.
  destruct (fold_issue_body_lookup check_issues all_issues component issue check_issues
              Hnodup Hissue Hst ∅ blocked Hblocked) as (outs & ins & Hlinks & Hlook).
  assert (Hrec : In (key target) outs).
  { change (In (key target) (fst (outs, ins))).
    eapply (fold_result_reaches (fun acc => In (key target) (fst acc)) _ _ link Hlink);
      [| |exact Hlinks].
    - intros acc acc'. now apply (link_body_outward_recorded _ _ _ link ref target).
    - intros l' acc acc' Hacc Hbody.
      now apply (proj1 (link_body_grows _ _ _ l' acc acc' Hbody)). }
  destruct (get_issue_Ok_inv _ _ _ Hget) as [_ Hkey]. rewrite Hkey in Hrec.
  destruct outs as [|o outs]; [destruct Hrec|]. cbn in Hlook.
  eexists. split; [exact Hlook | exact Hrec].
Qed.

(** X9: with unique keys in [check_issues], the record of an unresolved
    issue lists under 'is-blocked-by' the key of every inward "Blocks" link
    whose target passes [relevant] with no component, also when the target
    belongs to the component given to [get_blocked]. *)
Theorem get_blocked_inward_recorded check_issues all_issues component
    (blocked : gmap string BlockingRecord) (issue target : Issue)
    (link : IssueLink) (ref : IssueRef) (r : BlockingRecord) :
  List.NoDup (map key check_issues) ->
  In issue check_issues ->
  In link (f_issuelinks (fields issue)) ->
  name (link_type link) = "Blocks" ->
  outwardIssue link = None ->
  inwardIssue link = Some ref ->
  get_issue (ref_key ref) all_issues = Ok target ->
  relevant target None = true ->
  get_blocked Issue_eq check_issues all_issues component = Ok blocked ->
  blocked !! key issue = Some r ->
  In (ref_key ref) (is_blocked_by r).
Proof.
  intros Hnodup Hissue Hlink Hty Hout Hin Hget Hrel Hblocked Hr.
  assert (Hres : resolved issue = false).
  { destruct (get_blocked_keys_sound _ _ _ _ _ _ Hblocked Hr)
      as (issue' & Hin' & Hkey' & Hres').
    now rewrite <- (unique_key_same check_issues issue' issue Hnodup Hin' Hissue Hkey'). }
  destruct (fold_issue_body_lookup check_issues all_issues component issue check_issues
              Hnodup Hissue Hres ∅ blocked Hblocked) as (outs & ins & Hlinks & Hlook).
  assert (Hrec : In (key target) ins).
  { change (In (key target) (snd (outs, ins))).
    eapply (fold_result_reaches (fun acc => In (key target) (snd acc)) _ _ link Hlink);
      [| |exact Hlinks].
    - intros acc acc'. now apply (link_body_inward_recorded _ _ _ link ref target).
    - intros l' acc acc' Hacc Hbody.
      now apply (proj2 (link_body_grows _ _ _ l' acc acc' Hbody)). }
  destruct (get_issue_Ok_inv _ _ _ Hget) as [_ Hkey]. rewrite Hkey in Hrec.
  rewrite Hr in Hlook. destruct (truthy outs); [|now rewrite lookup_empty in Hlook].
  injection Hlook as ->. exact Hrec.
Qed.

(** X10: when an issue object equals itself, no key under 'blocks'
    resolves to an issue that is in [check_issues]. *)
Theorem get_blocked_blocks_outside_check check_issues all_issues component
    (blocked : gmap string BlockingRecord) (k k' : string) (r : BlockingRecord)
    (target : Issue) :
  (forall x, Issue_eq x x = true) ->
  get_blocked Issue_eq check_issues all_issues component = Ok blocked ->
  blocked !! k = Some r ->
  In k' (blocks r) ->
  get_issue k' all_issues = Ok target ->
  ~ In target check_issues.
Proof.
  intros Hrefl Hget Hk Hk' Htarget Hin.
  destruct (get_blocked_records_sound Issue_eq _ _ _ _ _ _ Hget Hk) as [Houts _].
  destruct (Houts k' Hk') as (t & Ht & Hnotin & _).
  rewrite Htarget in Ht. injection Ht as <-.
  unfold issue_in in Hnotin.
  assert (Hex : existsb (Issue_eq target) check_issues = true).
  { apply existsb_exists. exists target. split; [exact Hin | apply Hrefl]. }
  congruence.
Qed.

End LinkerMore.

(** ** More on lookup by key *)

(** X11: a lookup in [l1 ++ l2] is the lookup in [l1] when that succeeds,
    and the lookup in [l2] otherwise: an issue of the first list hides the
    issues of the second list that have its key. *)
Theorem get_issue_app (k : string) (l1 l2 : list Issue) :
  get_issue k (l1 ++ l2)
  = match get_issue k l1 with
    | Ok x => Ok x
    | Raise _ => get_issue k l2
    end.
Proof.
  unfold get_issue. rewrite List.filter_app.
  now destruct (List.filter (fun issue => String.eqb (key issue) k) l1).
Qed.

(** X12: in a list with unique keys, looking up the key of an issue of the
    list returns that issue. *)
Theorem get_issue_own_key (issues : list Issue) (x : Issue) :
  List.NoDup (map key issues) -> In x issues -> get_issue (key x) issues = Ok x.
Proof.
  intros Hnodup Hx.
  destruct (get_issue_present (key x) issues) as [y Hy]; [now exists x|].
  destruct (get_issue_Ok_inv _ _ _ Hy) as [Hin Hkey].
  now rewrite Hy, (unique_key_same issues y x Hnodup Hin Hx Hkey).
Qed.

(** ** More on the renderer *)

Lemma string_append_assoc (s1 s2 s3 : string) :
  (s1 +:+ s2) +:+ s3 = s1 +:+ (s2 +:+ s3).
Proof.
  induction s1 as [|ch s1 IH]; [reflexivity|].
  change (String ch ((s1 +:+ s2) +:+ s3) = String ch (s1 +:+ (s2 +:+ s3))).
  now f_equal.
Qed.

Lemma list_ascii_of_string_append (s1 s2 : string) :
  list_ascii_of_string (s1 +:+ s2) = list_ascii_of_string s1 ++ list_ascii_of_string s2.
Proof.
  induction s1 as [|ch s1 IH]; [reflexivity|].
  change (ch :: list_ascii_of_string (s1 +:+ s2)
          = ch :: (list_ascii_of_string s1 ++ list_ascii_of_string s2)).
  now f_equal.
Qed.

Lemma list_ascii_of_string_inj (s1 s2 : string) :
  list_ascii_of_string s1 = list_ascii_of_string s2 -> s1 = s2.
Proof.
  intros H. rewrite <- (string_of_list_ascii_of_string s1),
    <- (string_of_list_ascii_of_string s2). now rewrite H.
Qed.

(** X13: [node] is injective: two vertices print the same text only if
    they are the same issue key with the same shape. *)
Theorem node_injective (issue1 issue2 : string) (special1 special2 : bool) :
  node issue1 special1 = node issue2 special2 ->
  issue1 = issue2 /\ special1 = special2.
Proof.
  unfold node. intros H. apply (f_equal list_ascii_of_string) in H.
  rewrite !list_ascii_of_string_append in H.
  apply app_inv_head in H.
  destruct special1, special2; cbn [list_ascii_of_string] in H.
  - apply app_inv_tail in H. split; [now apply list_ascii_of_string_inj | reflexivity].
  - exfalso.
    change (list_ascii_of_string issue1
            ++ ["034"; " "; "["; " "; "s"; "h"; "a"; "p"; "e"; " "; "="; " "; "t"; "r";
                "i"; "a"; "n"; "g"; "l"; "e"; " "] ++ ["]"]
            = list_ascii_of_string issue2 ++ ["034"] ++ [" "])%char in H.
    rewrite !app_assoc in H. apply app_inj_tail in H. destruct H as [_ H].
    discriminate H.
  - exfalso.
    change (list_ascii_of_string issue1 ++ ["034"] ++ [" "]
            = list_ascii_of_string issue2
              ++ ["034"; " "; "["; " "; "s"; "h"; "a"; "p"; "e"; " "; "="; " "; "t"; "r";
                  "i"; "a"; "n"; "g"; "l"; "e"; " "] ++ ["]"])%char in H.
    rewrite !app_assoc in H. apply app_inj_tail in H. destruct H as [_ H].
    discriminate H.
  - apply app_inv_tail in H. split; [now apply list_ascii_of_string_inj | reflexivity].
Qed.

Lemma app_regroup {A : Type} (p1 x p2 m q2 q1 : list A) :
  p1 ++ (x ++ p2 ++ m ++ q2) ++ q1 = (p1 ++ x ++ p2) ++ m ++ q2 ++ q1.
Proof. now rewrite <- !app_assoc. Qed.

Lemma flat_map_In_split {A B : Type} (f : A -> list B) (l : list A) (x : A) :
  In x l -> exists pre post, flat_map f l = pre ++ f x ++ post.
Proof.
  intros Hx. apply in_split in Hx. destruct Hx as (l1 & l2 & ->).
  exists (flat_map f l1), (flat_map f l2).
  now rewrite flat_map_app.
Qed.

(** X14: [output] ends normally, without raising; it prints the header
    first and the closing brace last, and in between, for every record and
    every key under its 'blocks', the node line of that key directly followed
    by the edge line from the record's key to it. *)
Theorem output_edges (blocked : gmap string BlockingRecord) :
  outcome (output blocked) = Some (Ok tt)
  /\ exists body,
    trace (output blocked) = Print header :: body ++ [Print "}"]
    /\ forall k r t, blocked !! k = Some r -> In t (blocks r) ->
         edge k t = DQ +:+ k +:+ DQ +:+ "  -> " +:+ DQ +:+ t +:+ DQ +:+ " ;"
         /\ exists pre post,
              body = pre ++ Print (node t false) :: Print (edge k t) :: post.
Proof.
  rewrite output_Ok. cbn [trace outcome]. split; [reflexivity|].
  eexists. split; [reflexivity|].
  intros k r t Hk Ht. split.
  - unfold edge, node. apply list_ascii_of_string_inj.
    rewrite !list_ascii_of_string_append. cbn [list_ascii_of_string DQ app].
    rewrite <- (app_assoc (list_ascii_of_string k)). cbn [app].
    rewrite <- (app_assoc (list_ascii_of_string t)). reflexivity.
  - apply In_map_to_list in Hk.
    destruct (flat_map_In_split (fun item => trace (output_record item)) _ _ Hk)
      as (pre1 & post1 & ->).
    rewrite output_record_Ok. cbn [trace].
    destruct (flat_map_In_split
                (fun out_issue => [Print (node out_issue false); Print (edge k out_issue)])
                _ _ Ht) as (pre2 & post2 & ->).
    eexists _, (post2 ++ post1).
    exact (app_regroup pre1 _ pre2 [Print (node t false); Print (edge k t)] post2 post1).
Qed.

(** ** More on the main method and the command line *)

(** X15: with fewer than three arguments after the script name, the script
    prints the usage line and exits with code 42; it sends no request and
    prints nothing else. *)
Theorem main_too_few_arguments (Issue_eq : Issue -> Issue -> bool) (fuel : nat)
    (connect : string -> string -> string -> JIRA) (password : string)
    (argv : list string) :
  length argv < 4 ->
  main Issue_eq fuel connect password argv
  = MkM [Print (argv_at argv 0 +:+ " <user> <server> <project> <component>")]
        (Some (Raise (SystemExit 42))).
Proof.
  intros Hlen. unfold main. apply Nat.ltb_lt in Hlen. rewrite Hlen. reflexivity.
Qed.

(** X16: the component is read only when the command line has exactly
    five entries; with four, or with six and more, [run] gets no component
    and the entries after the project are ignored. *)
Theorem main_component_only_with_five (Issue_eq : Issue -> Issue -> bool) (fuel : nat)
    (connect : string -> string -> string -> JIRA) (password : string)
    (argv : list string) :
  4 <= length argv ->
  length argv <> 5 ->
  main Issue_eq fuel connect password argv
  = run Issue_eq fuel (connect (argv_at argv 1) password (argv_at argv 2))
        (argv_at argv 3) None.
Proof.
  intros Hmin Hne. unfold main, COMPONENT.
  assert (H4 : (length argv <? 4)%nat = false) by (apply Nat.ltb_ge; exact Hmin).
  assert (H5 : (length argv =? 5)%nat = false) by (apply Nat.eqb_neq; exact Hne).
  rewrite H4, H5.
  destruct (run Issue_eq fuel _ _ _) as [t o]. reflexivity.
Qed.

(** X17: [run] prints the graph only if every lookup of [get_blocked]
    succeeds: when [get_blocked] raises, [run] ends with that exception
    after the three fetches and the count line, with no line of the graph
    printed; otherwise it ends normally after printing the whole graph. *)
Theorem run_graph_all_or_nothing (Issue_eq : Issue -> Issue -> bool) (fuel : nat)
    (jira : JIRA) (project : string) (component : option string) :
  0 < fuel ->
  let chunk query := map (jira_issue jira) (search_issues jira query 0 MAX_ISSUES) in
  let found query :=
    [Print ("# JQL: " +:+ query);
     Search query 0 MAX_ISSUES;
     Print ("# Found " +:+ format_nat (length (chunk query)) +:+ " matching issues.")] in
  let all_issues := chunk ("project=" +:+ project) ++ chunk "project=TFAPD" in
  let issues_to_check := chunk (jql project component) in
  let fetched :=
    found ("project=" +:+ project) ++ found "project=TFAPD"
    ++ found (jql project component)
    ++ [Print ("# " +:+ format_nat (length issues_to_check) +:+ " in "
               +:+ format_component component)] in
  match get_blocked Issue_eq issues_to_check all_issues component with
  | Ok blocked =>
      run Issue_eq fuel jira project component
      = MkM (fetched ++ trace (output blocked)) (Some (Ok tt))
  | Raise e =>
      run Issue_eq fuel jira project component = MkM fetched (Some (Raise e))
  end.
Proof.
  intros Hfuel. cbv zeta. destruct fuel as [|fuel]; [lia|].
  pose proof (run_eq Issue_eq fuel jira project component) as Hrun.
  cbv zeta in Hrun. rewrite Hrun.
  destruct (get_blocked Issue_eq _ _ component) as [blocked|e].
  - unfold mbind, M_bind, lift. cbn [outcome trace]. now rewrite output_Ok.
  - unfold mbind, M_bind, lift. cbn [outcome trace]. now rewrite app_nil_r.
Qed.

(** ** More on the relevance filter *)

(** X18: the component argument only removes issues: an issue relevant for
    some component argument is relevant with no component, so whatever may
    be listed under 'blocks' may be listed under 'is-blocked-by'. *)
Theorem relevant_without_component (issue : Issue) (component : option string) :
  relevant issue component = true -> relevant issue None = true.
Proof.
  unfold relevant. destruct (resolved issue); [discriminate|].
  now destruct (component_in component (components issue)).
Qed.

(** ** The further theorems at the sample tracker *)

Ltac unique_keys :=
  simpl; repeat (apply List.NoDup_cons; [simpl; intuition discriminate|]);
  apply List.NoDup_nil.

Lemma get_blocked_keys_from_unresolved_witness :
  exists issue, In issue Sample.component_X
                /\ key issue = "P-7"
                /\ ~ In (name (f_status (fields issue)))
                        ["Done"; "Resolved"; "Fertig"; "Closed"].
Proof.
  apply (get_blocked_keys_from_unresolved Sample.key_eq Sample.component_X
           Sample.project_P (Some "X") Sample.expected "P-7"
           {| blocks := ["P-8"]; is_blocked_by := [] |}).
  - vm_compute. reflexivity.
  - vm_compute. reflexivity.
Defined.

Lemma get_blocked_blocks_targets_witness :
  exists target,
    get_issue "P-2" Sample.project_P = Ok target
    /\ issue_in Sample.key_eq target Sample.component_X = false
    /\ ~ In (name (f_status (fields target))) ["Done"; "Resolved"; "Fertig"; "Closed"]
    /\ (forall c, Some "X" = Some c -> ~ In c (components target))
    /\ (In (name (f_priority (fields target))) ["High"; "Highest"]
        \/ exists severity, f_severity (fields target) = Some severity
                            /\ name severity = "Major").
Proof.
  apply (get_blocked_blocks_targets Sample.key_eq Sample.component_X
           Sample.project_P (Some "X") Sample.expected "P-1" "P-2"
           {| blocks := ["P-2"]; is_blocked_by := ["P-3"] |}).
  - vm_compute. reflexivity.
  - vm_compute. reflexivity.
  - simpl. left. reflexivity.
Defined.

Lemma get_blocked_inward_targets_witness :
  exists target,
    get_issue "P-3" Sample.project_P = Ok target
    /\ relevant target None = true
    /\ ~ In (name (f_status (fields target))) ["Done"; "Resolved"; "Fertig"; "Closed"]
    /\ (In (name (f_priority (fields target))) ["High"; "Highest"]
        \/ exists severity, f_severity (fields target) = Some severity
                            /\ name severity = "Major").
Proof.
  apply (get_blocked_inward_targets Sample.key_eq Sample.component_X
           Sample.project_P (Some "X") Sample.expected "P-1" "P-3"
           {| blocks := ["P-2"]; is_blocked_by := ["P-3"] |}).
  - vm_compute. reflexivity.
  - vm_compute. reflexivity.
  - simpl. left. reflexivity.
Defined.

Lemma get_blocked_nothing_to_link_witness :
  get_blocked Sample.key_eq [Sample.d] [] None = Ok ∅.
Proof.
  apply (get_blocked_nothing_to_link Sample.key_eq [Sample.d] [] None).
  intros issue [<- | []]. left. simpl. right. right. right. left. reflexivity.
Defined.

Lemma get_blocked_dangling_link_witness :
  get_blocked Sample.key_eq [Sample.g] [Sample.a; Sample.g] (Some "X")
  = Raise IndexError.
Proof.
  apply (get_blocked_dangling_link Sample.key_eq [Sample.g] [Sample.a; Sample.g]
           (Some "X") Sample.g (Sample.blocks_out "P-8") {| ref_key := "P-8" |}).
  - simpl. left. reflexivity.
  - simpl. intros [H | [H | [H | [H | []]]]]; discriminate H.
  - simpl. left. reflexivity.
  - reflexivity.
  - left. reflexivity.
  - simpl. intros y [<- | [<- | []]]; discriminate.
Defined.

Lemma get_blocked_outward_recorded_witness :
  exists r, Sample.expected !! "P-1" = Some r /\ In "P-2" (blocks r).
Proof.
  apply (get_blocked_outward_recorded Sample.key_eq Sample.component_X Sample.project_P
           (Some "X") Sample.expected Sample.a Sample.b (Sample.blocks_out "P-2")
           {| ref_key := "P-2" |}).
  - unique_keys.
  - simpl. left. reflexivity.
  - simpl. intros [H | [H | [H | [H | []]]]]; discriminate H.
  - simpl. left. reflexivity.
  - reflexivity.
  - reflexivity.
  - vm_compute. reflexivity.
  - vm_compute. reflexivity.
  - vm_compute. reflexivity.
  - vm_compute. reflexivity.
Defined.

Lemma get_blocked_inward_recorded_witness :
  In "P-3" (is_blocked_by {| blocks := ["P-2"]; is_blocked_by := ["P-3"] |})
  /\ In "X" (components Sample.c).
Proof.
  split; [|simpl; left; reflexivity].
  apply (get_blocked_inward_recorded Sample.key_eq Sample.component_X Sample.project_P
           (Some "X") Sample.expected Sample.a Sample.c (Sample.blocks_in "P-3")
           {| ref_key := "P-3" |}).
  - unique_keys.
  - simpl. left. reflexivity.
  - simpl. right. left. reflexivity.
  - reflexivity.
  - reflexivity.
  - reflexivity.
  - vm_compute. reflexivity.
  - vm_compute. reflexivity.
  - vm_compute. reflexivity.
  - vm_compute. reflexivity.
Defined.

Lemma get_blocked_blocks_outside_check_witness : ~ In Sample.b Sample.component_X.
Proof.
  apply (get_blocked_blocks_outside_check Sample.key_eq Sample.component_X
           Sample.project_P (Some "X") Sample.expected "P-1" "P-2"
           {| blocks := ["P-2"]; is_blocked_by := ["P-3"] |} Sample.b).
  - intros x. apply String.eqb_refl.
  - vm_compute. reflexivity.
  - vm_compute. reflexivity.
  - simpl. left. reflexivity.
  - vm_compute. reflexivity.
Defined.

Lemma get_issue_own_key_witness : get_issue "P-3" Sample.project_P = Ok Sample.c.
Proof.
  apply (get_issue_own_key Sample.project_P Sample.c).
  - unique_keys.
  - simpl. right. right. left. reflexivity.
Defined.

Lemma node_injective_witness : "P-1" = "P-1" /\ true = true.
Proof.
  apply (node_injective "P-1" "P-1" true true). reflexivity.
Defined.

Lemma output_edges_witness :
  outcome (output Sample.expected) = Some (Ok tt)
  /\ exists body,
    trace (output Sample.expected) = Print header :: body ++ [Print "}"]
    /\ exists pre post,
         body = pre ++ Print (node "P-2" false) :: Print (edge "P-1" "P-2") :: post.
Proof.
  destruct (output_edges Sample.expected) as (Hok & body & Hframe & Hedges).
  split; [exact Hok|].
  exists body. split; [exact Hframe|].
  apply (Hedges "P-1" {| blocks := ["P-2"]; is_blocked_by := ["P-3"] |} "P-2").
  - vm_compute. reflexivity.
  - simpl. left. reflexivity.
Defined.

Lemma main_too_few_arguments_witness :
  main Sample.key_eq 1 Sample.connect "secret" ["jirablockers.py"; "user"]
  = MkM [Print "jirablockers.py <user> <server> <project> <component>"]
        (Some (Raise (SystemExit 42))).
Proof.
  apply (main_too_few_arguments Sample.key_eq 1 Sample.connect "secret"
           ["jirablockers.py"; "user"]).
  simpl. lia.
Defined.

Lemma main_component_only_with_five_witness :
  main Sample.key_eq 1 Sample.connect "secret"
       ["jirablockers.py"; "user"; "server"; "P"; "X"; "Y"]
  = run Sample.key_eq 1 Sample.tracker "P" None.
Proof.
  apply (main_component_only_with_five Sample.key_eq 1 Sample.connect "secret"
           ["jirablockers.py"; "user"; "server"; "P"; "X"; "Y"]).
  - simpl. lia.
  - simpl. lia.
Defined.

Lemma run_graph_all_or_nothing_witness :
  outcome (run Sample.key_eq 1 Sample.tracker "P" (Some (DQ +:+ "X" +:+ DQ)))
  = Some (Ok tt).
Proof.
  pose proof (run_graph_all_or_nothing Sample.key_eq 1 Sample.tracker "P"
                (Some (DQ +:+ "X" +:+ DQ))) as H.
  cbv zeta in H. specialize (H ltac:(lia)).
  destruct (get_blocked Sample.key_eq _ _ _) as [blocked|e] eqn:Hget.
  - rewrite H. reflexivity.
  - vm_compute in Hget. discriminate Hget.
Defined.

Lemma relevant_without_component_witness : relevant Sample.b None = true.
Proof.
  apply (relevant_without_component Sample.b (Some "X")). reflexivity.
Defined.

(** ** More on fetching *)

(** X19: when the tracker serves pages of a fixed list of matching issues
    and that list has at most [MAX_ISSUES] entries, [component_issues]
    returns all of them: nothing is lost below the cap. *)
Theorem component_issues_complete_below_cap (fuel : nat) (self : JIRA)
    (project : string) (component : option string) (matching : list Issue) :
  0 < fuel ->
  (forall start_at max_results,
      search_issues self (jql project component) start_at max_results
      = firstn max_results (skipn start_at matching)) ->
  length matching <= MAX_ISSUES ->
  outcome (component_issues fuel self project component)
  = Some (Ok (map (jira_issue self) matching)).
Proof.
  intros Hfuel Hpaged Hlen. destruct fuel as [|fuel]; [lia|].
  pose proof (component_issues_eq fuel self project component) as Heq.
  cbv zeta in Heq. rewrite Heq. cbn [outcome]. rewrite Hpaged.
  cbn [skipn]. now rewrite firstn_all2.
Qed.

Lemma component_issues_complete_below_cap_witness :
  outcome (component_issues 1 Sample.tracker "P" None) = Some (Ok Sample.project_P).
Proof.
  rewrite (component_issues_complete_below_cap 1 Sample.tracker "P" None
             Sample.project_P).
  - vm_compute. reflexivity.
  - lia.
  - intros start_at max_results. reflexivity.
  - vm_compute. lia.
Defined.

(** ** What a record holds, link by link *)

Section RecordContents.

Variable Issue_eq : Issue -> Issue -> bool.

(** Whatever one round adds to a list comes from its link. *)
Lemma link_body_listed check_issues all_issues component link
    (acc acc' : list string * list string) :
  link_body Issue_eq check_issues all_issues component link acc = Ok acc' ->
  (forall k, In k (fst acc') ->
     In k (fst acc) \/ outward_listed Issue_eq check_issues all_issues component link k)
  /\ (forall k, In k (snd acc') ->
        In k (snd acc) \/ inward_listed Issue_eq check_issues all_issues link k).
Proof.
  destruct acc as [outs ins]. unfold link_body.
  destruct (String.eqb_spec (name (link_type link)) "Blocks") as [Hty | _];
    [|intros [= <-]; cbn; split; auto].
  assert (Hin : forall outs' : list string,
             (forall oref, outwardIssue link = Some oref ->
                exists o, get_issue (ref_key oref) all_issues = Ok o
                          /\ issue_in Issue_eq o check_issues = false) ->
             match inwardIssue link with
             | Some ref =>
                 inward_issue ← get_issue (ref_key ref) all_issues;
                 if relevant inward_issue None
                 then Ok (outs', ins ++ [key inward_issue])
                 else Ok (outs', ins)
             | None => Ok (outs', ins)
             end = Ok acc' ->
             fst acc' = outs'
             /\ (forall k, In k (snd acc') ->
                   In k ins \/ inward_listed Issue_eq check_issues all_issues link k)).
  { intros outs' Hreach. destruct (inwardIssue link) as [iref|] eqn:Hi.
    - destruct (get_issue (ref_key iref) all_issues) as [t|e] eqn:Ht; cbn;
        [|discriminate].
      destruct (get_issue_Ok_inv _ _ _ Ht) as [_ Hkey].
      destruct (relevant t None) eqn:Hrel; intros [= <-]; cbn; split; auto.
      intros k Hk. apply in_app_or in Hk. destruct Hk as [Hk | [<- | []]]; [now left|].
      right. split; [exact Hty | split; [exact Hreach|]].
      exists iref, t. rewrite Hkey. now repeat split.
    - intros [= <-]. cbn. split; auto. }
  destruct (outwardIssue link) as [oref|] eqn:Ho.
  - destruct (get_issue (ref_key oref) all_issues) as [o|e] eqn:Hgo; cbn; [|discriminate].
    destruct (get_issue_Ok_inv _ _ _ Hgo) as [_ Hkey].
    destruct (issue_in Issue_eq o check_issues) eqn:Hmem;
      [intros [= <-]; cbn; split; auto|].
    assert (Hreach : forall oref', Some oref = Some oref' ->
               exists o', get_issue (ref_key oref') all_issues = Ok o'
                          /\ issue_in Issue_eq o' check_issues = false).
    { intros oref' [= <-]. now exists o. }
    destruct (relevant o component) eqn:Hrel; intros Hbody;
      destruct (Hin _ Hreach Hbody) as [Hfst Hsnd]; split; try exact Hsnd;
      rewrite Hfst; cbn; [|auto].
    intros k Hk. apply in_app_or in Hk. destruct Hk as [Hk | [<- | []]]; [now left|].
    right. split; [exact Hty|]. exists oref, o. rewrite Hkey. now repeat split.
  - assert (Hreach : forall oref', @None IssueRef = Some oref' ->
               exists o', get_issue (ref_key oref') all_issues = Ok o'
                          /\ issue_in Issue_eq o' check_issues = false)
      by (intros oref' H; discriminate H).
    intros Hbody. destruct (Hin _ Hreach Hbody) as [Hfst Hsnd].
    split; [|exact Hsnd]. rewrite Hfst. cbn. auto.
Qed.

(** A link that qualifies for the inward list puts its key there, also when
    it has an outward issue. *)
Lemma link_body_inward_listed check_issues all_issues component link (k : string)
    (acc acc' : list string * list string) :
  inward_listed Issue_eq check_issues all_issues link k ->
  link_body Issue_eq check_issues all_issues component link acc = Ok acc' ->
  In k (snd acc').
Proof.
  intros (Hty & Hreach & iref & t & Hi & Hk & Ht & Hrel). destruct acc as [outs ins].
  destruct (get_issue_Ok_inv _ _ _ Ht) as [_ Hkey].
  unfold link_body. rewrite Hty, Hi, Hk. cbn. rewrite Ht. cbn. rewrite Hrel, Hkey.
  destruct (outwardIssue link) as [oref|].
  - destruct (Hreach oref eq_refl) as (o & Ho & Hmem). rewrite Ho. cbn. rewrite Hmem.
    destruct (relevant o component); intros [= <-]; cbn; apply in_or_app; right;
      now left.
  - intros [= <-]. cbn. apply in_or_app. right. now left.
Qed.

(** A link that qualifies for the outward list puts its key there. *)
Lemma link_body_outward_listed check_issues all_issues component link (k : string)
    (acc acc' : list string * list string) :
  outward_listed Issue_eq check_issues all_issues component link k ->
  link_body Issue_eq check_issues all_issues component link acc = Ok acc' ->
  In k (fst acc').
Proof.
  intros (Hty & oref & o & Ho & Hk & Hget & Hmem & Hrel) Hbody.
  destruct (get_issue_Ok_inv _ _ _ Hget) as [_ Hkey]. rewrite <- Hkey.
  apply (link_body_outward_recorded Issue_eq check_issues all_issues component
           link oref o acc acc'); try assumption.
  now rewrite Hk.
Qed.

(** The two lists built from the links of an issue hold exactly the keys of
    the links that qualify. *)
Lemma links_listed check_issues all_issues component (links : list IssueLink)
    (outs ins : list string) :
  fold_result (link_body Issue_eq check_issues all_issues component) links ([], [])
  = Ok (outs, ins) ->
  (forall k, In k ins <->
     exists link, In link links
                  /\ inward_listed Issue_eq check_issues all_issues link k)
  /\ (forall k, In k outs <->
        exists link, In link links
                     /\ outward_listed Issue_eq check_issues all_issues component link k).
Proof.
  intros Hfold.
  assert (Hsound :
    (forall k, In k (fst (outs, ins)) ->
       exists link, In link links
                    /\ outward_listed Issue_eq check_issues all_issues component link k)
    /\ (forall k, In k (snd (outs, ins)) ->
          exists link, In link links
                       /\ inward_listed Issue_eq check_issues all_issues link k)).
  { apply (fold_result_invariant
             (fun acc : list string * list string =>
                (forall k, In k (fst acc) ->
                   exists link, In link links
                     /\ outward_listed Issue_eq check_issues all_issues component link k)
                /\ (forall k, In k (snd acc) ->
                      exists link, In link links
                        /\ inward_listed Issue_eq check_issues all_issues link k))
             (link_body Issue_eq check_issues all_issues component) links)
      with (s := ([], [])); [| |exact Hfold].
    - intros link acc acc' Hlink [Ho Hi] Hbody.
      destruct (link_body_listed _ _ _ _ _ _ Hbody) as [Ho' Hi'].
      split; intros k Hk.
      + destruct (Ho' k Hk) as [Hold | Hnew]; [now apply Ho | now exists link].
      + destruct (Hi' k Hk) as [Hold | Hnew]; [now apply Hi | now exists link].
    - split; intros k []. }
  destruct Hsound as [Ho Hi]. split; intros k; split.
  - apply Hi.
  - intros (link & Hlink & Hq). change (In k (snd (outs, ins))).
    eapply (fold_result_reaches (fun acc => In k (snd acc)) _ _ link Hlink);
      [| |exact Hfold].
    + intros acc acc'. now apply link_body_inward_listed.
    + intros l' acc acc' Hacc Hbody.
      now apply (proj2 (link_body_grows Issue_eq _ _ _ l' acc acc' Hbody)).
  - apply Ho.
  - intros (link & Hlink & Hq). change (In k (fst (outs, ins))).
    eapply (fold_result_reaches (fun acc => In k (fst acc)) _ _ link Hlink);
      [| |exact Hfold].
    + intros acc acc'. now apply link_body_outward_listed.
    + intros l' acc acc' Hacc Hbody.
      now apply (proj1 (link_body_grows Issue_eq _ _ _ l' acc acc' Hbody)).
Qed.

(** Every record of the dictionary is what the links of one unresolved issue
    with that key produced. *)
Lemma get_blocked_record_origin check_issues all_issues component
    (blocked : gmap string BlockingRecord) (k : string) (r : BlockingRecord) :
  get_blocked Issue_eq check_issues all_issues component = Ok blocked ->
  blocked !! k = Some r ->
  exists issue,
    In issue check_issues /\ key issue = k /\ resolved issue = false
    /\ fold_result (link_body Issue_eq check_issues all_issues component)
                   (f_issuelinks (fields issue)) ([], [])
       = Ok (blocks r, is_blocked_by r).
Proof.
  intros Hget. revert k r. unfold get_blocked in Hget.
  eapply (fold_result_invariant
            (fun m : gmap string BlockingRecord => forall k r, m !! k = Some r ->
               exists issue,
                 In issue check_issues /\ key issue = k /\ resolved issue = false
                 /\ fold_result (link_body Issue_eq check_issues all_issues component)
                                (f_issuelinks (fields issue)) ([], [])
                    = Ok (blocks r, is_blocked_by r)));
    [| |exact Hget].
  - intros issue m m' Hissue Hm. unfold issue_body.
    destruct (resolved issue) eqn:Hres; [now intros [= <-]|].
    destruct (fold_result (link_body _ _ _ _) _ _) as [[outs ins]|e] eqn:Hlinks;
      [|discriminate].
    cbn. destruct (truthy outs); intros [= <-]; [|exact Hm].
    intros k r. rewrite lookup_insert. case_decide; [|apply Hm].
    intros [= <-]. now exists issue.
  - intros k r. now rewrite lookup_empty.
Qed.

(** C5: in the dictionary that [get_blocked] returns, the 'is-blocked-by'
    list of a record holds exactly the keys of the inward "Blocks" links, of
    the issue it was built from, whose resolved target passes
    [relevant target None]: the component given to [get_blocked] plays no
    part, so a target that belongs to the component is listed although
    [relevant] rejects it for that component.  The 'blocks' list holds
    exactly the keys of the outward links whose target passes [relevant] with
    the component.  When the keys of [check_issues] are unique, so that no
    record is overwritten, this describes the entry of every unresolved
    issue. *)
Theorem get_blocked_inward_without_component check_issues all_issues
    (component : option string) (blocked : gmap string BlockingRecord) :
  get_blocked Issue_eq check_issues all_issues component = Ok blocked ->
  (forall k r,
      blocked !! k = Some r ->
      exists issue,
        In issue check_issues /\ key issue = k
        /\ ~ In (name (f_status (fields issue))) ["Done"; "Resolved"; "Fertig"; "Closed"]
        /\ (forall k', In k' (is_blocked_by r) <->
              exists link, In link (f_issuelinks (fields issue))
                           /\ inward_listed Issue_eq check_issues all_issues link k')
        /\ (forall k', In k' (blocks r) <->
              exists link, In link (f_issuelinks (fields issue))
                           /\ outward_listed Issue_eq check_issues all_issues component
                                             link k'))
  /\ (List.NoDup (map key check_issues) ->
      forall issue,
        In issue check_issues ->
        ~ In (name (f_status (fields issue))) ["Done"; "Resolved"; "Fertig"; "Closed"] ->
        exists outs ins,
          blocked !! key issue
          = (if truthy outs
             then Some {| blocks := outs; is_blocked_by := ins |}
             else None)
          /\ (forall k, In k ins <->
                exists link, In link (f_issuelinks (fields issue))
                             /\ inward_listed Issue_eq check_issues all_issues link k)
          /\ (forall k, In k outs <->
                exists link, In link (f_issuelinks (fields issue))
                             /\ outward_listed Issue_eq check_issues all_issues component
                                               link k)
          /\ (forall link k target c,
                component = Some c ->
                In link (f_issuelinks (fields issue)) ->
                inward_listed Issue_eq check_issues all_issues link k ->
                get_issue k all_issues = Ok target ->
                In c (components target) ->
                In k ins
                /\ relevant target None = true
                /\ relevant target component = false
                /\ forall out_link,
                     ~ outward_listed Issue_eq check_issues all_issues component
                                      out_link k)).
Proof.
  intros Hget. split.
  - intros k r Hk.
    destruct (get_blocked_record_origin _ _ _ _ _ _ Hget Hk)
      as (issue & Hissue & Hkey & Hres & Hlinks).
    destruct (links_listed _ _ _ _ _ _ Hlinks) as [Hins Houts].
    exists issue. split; [exact Hissue | split; [exact Hkey | split; [|now split]]].
    exact (proj1 (str_in_false (name (f_status (fields issue)))
                               ["Done"; "Resolved"; "Fertig"; "Closed"]) Hres).
  - intros Hnodup issue Hissue Hst. apply str_in_false in Hst.
    destruct (fold_issue_body_lookup Issue_eq check_issues all_issues component issue
                check_issues Hnodup Hissue Hst ∅ blocked Hget)
      as (outs & ins & Hlinks & Hlook).
    destruct (links_listed _ _ _ _ _ _ Hlinks) as [Hins Houts].
    exists outs, ins. split; [|split; [exact Hins | split; [exact Houts|]]].
    + rewrite Hlook. destruct (truthy outs); [reflexivity | apply lookup_empty].
    + intros link k target c -> Hlink Hq Htarget Hc.
      assert (Hrej : relevant target (Some c) = false)
        by (apply relevant_component_member; now apply str_in_In).
      split; [apply Hins; now exists link | split; [|split; [exact Hrej|]]].
      * destruct Hq as (_ & _ & iref & t & _ & _ & Ht & Hrel).
        rewrite Htarget in Ht. now injection Ht as <-.
      * intros out_link (_ & oref & o & _ & _ & Ho & _ & Hrel).
        rewrite Htarget in Ho. injection Ho as <-. congruence.
Qed.

End RecordContents.

Lemma get_blocked_inward_without_component_witness :
  exists outs ins,
    Sample.expected !! "P-1"
    = (if truthy outs then Some {| blocks := outs; is_blocked_by := ins |} else None)
    /\ In "P-3" ins
    /\ In "X" (components Sample.c)
    /\ relevant Sample.c (Some "X") = false.
Proof.
  destruct (get_blocked_inward_without_component Sample.key_eq Sample.component_X
              Sample.project_P (Some "X") Sample.expected) as [_ Hentry].
  - vm_compute. reflexivity.
  - destruct (Hentry ltac:(unique_keys) Sample.a) as (outs & ins & Hlook & _ & _ & Heven).
    + simpl. left. reflexivity.
    + simpl. intros [H | [H | [H | [H | []]]]]; discriminate H.
    + exists outs, ins. split; [exact Hlook|].
      destruct (Heven (Sample.blocks_in "P-3") "P-3" Sample.c "X")
        as (Hk & _ & Hrej & _).
      * reflexivity.
      * simpl. right. left. reflexivity.
      * split; [reflexivity | split].
        -- intros oref H. discriminate H.
        -- exists {| ref_key := "P-3" |}, Sample.c.
           repeat split; vm_compute; reflexivity.
      * vm_compute. reflexivity.
      * simpl. left. reflexivity.
      * split; [exact Hk | split; [simpl; left; reflexivity | exact Hrej]].
Defined.

(** ** The component of the command line *)

(** C10: with a component argument on the command line, [run] gets the
    argument wrapped in double quotes.  The quoted string goes into the
    query, and it is the component that [get_blocked] is called with: the
    'blocks' list of every record holds exactly the keys of the outward links
    whose target passes [relevant] with the quoted string.  [relevant]
    excludes an issue only if one of its component names is the quoted
    string, which the raw argument is not. *)
Theorem main_passes_quoted_component (Issue_eq : Issue -> Issue -> bool) (fuel : nat)
    (connect : string -> string -> string -> JIRA) (password : string)
    (argv : list string) :
  length argv = 5 ->
  let raw := argv_at argv 4 in
  let quoted := DQ +:+ raw +:+ DQ in
  let jira := connect (argv_at argv 1) password (argv_at argv 2) in
  let project := argv_at argv 3 in
  let chunk query := map (jira_issue jira) (search_issues jira query 0 MAX_ISSUES) in
  let found query :=
    [Print ("# JQL: " +:+ query);
     Search query 0 MAX_ISSUES;
     Print ("# Found " +:+ format_nat (length (chunk query)) +:+ " matching issues.")] in
  let all_issues := chunk ("project=" +:+ project) ++ chunk "project=TFAPD" in
  let issues_to_check := chunk (jql project (Some quoted)) in
  main Issue_eq fuel connect password argv
  = run Issue_eq fuel jira project (Some quoted)
  /\ jql project (Some quoted)
     = "project=" +:+ project +:+ " AND component=" +:+ DQ +:+ raw +:+ DQ
  /\ (0 < fuel ->
      main Issue_eq fuel connect password argv
      = (MkM (found ("project=" +:+ project) ++ found "project=TFAPD"
              ++ found (jql project (Some quoted))
              ++ [Print ("# " +:+ format_nat (length issues_to_check) +:+ " in "
                         +:+ quoted)])
             (Some (Ok tt)) ;;
         blocked ← lift (get_blocked Issue_eq issues_to_check all_issues (Some quoted));
         output blocked))
  /\ quoted <> raw
  /\ (forall blocked issue,
        List.NoDup (map key issues_to_check) ->
        In issue issues_to_check ->
        ~ In (name (f_status (fields issue))) ["Done"; "Resolved"; "Fertig"; "Closed"] ->
        get_blocked Issue_eq issues_to_check all_issues (Some quoted) = Ok blocked ->
        exists outs ins,
          blocked !! key issue
          = (if truthy outs
             then Some {| blocks := outs; is_blocked_by := ins |}
             else None)
          /\ forall k, In k outs <->
               exists link, In link (f_issuelinks (fields issue))
                            /\ outward_listed Issue_eq issues_to_check all_issues
                                              (Some quoted) link k)
  /\ (forall blocked k r k',
        get_blocked Issue_eq issues_to_check all_issues (Some quoted) = Ok blocked ->
        blocked !! k = Some r ->
        In k' (blocks r) ->
        exists target, get_issue k' all_issues = Ok target
                       /\ relevant target (Some quoted) = true
                       /\ ~ In quoted (components target))
  /\ (forall issue, In quoted (components issue) -> relevant issue (Some quoted) = false)
  /\ (forall issue, ~ In quoted (components issue) ->
        relevant issue (Some quoted) = relevant issue None).
Proof.
  intros Hlen raw quoted jira project chunk found all_issues issues_to_check.
  assert (Hmain : main Issue_eq fuel connect password argv
                  = run Issue_eq fuel jira project (Some quoted)).
  { unfold main, COMPONENT. rewrite Hlen. cbn [Nat.ltb Nat.leb Nat.eqb].
    fold raw. fold quoted. fold jira. fold project.
    destruct (run Issue_eq fuel jira project (Some quoted)) as [t o].
    unfold mret, M_ret, mbind, M_bind. reflexivity. }
  split; [exact Hmain | split; [reflexivity|]].
  split; [|split; [apply quoted_neq | split; [|split; [|split]]]].
  - intros Hfuel. destruct fuel as [|fuel]; [lia|].
    rewrite Hmain. apply run_eq.
  - intros blocked issue Hnodup Hissue Hst Hget. apply str_in_false in Hst.
    destruct (fold_issue_body_lookup Issue_eq issues_to_check all_issues (Some quoted)
                issue issues_to_check Hnodup Hissue Hst ∅ blocked Hget)
      as (outs & ins & Hlinks & Hlook).
    exists outs, ins. split.
    + rewrite Hlook. destruct (truthy outs); [reflexivity | apply lookup_empty].
    + apply (links_listed Issue_eq _ _ _ _ _ _ Hlinks).
  - intros blocked k r k' Hget Hk Hk'.
    destruct (get_blocked_records_sound Issue_eq _ _ _ _ _ _ Hget Hk) as [Houts _].
    destruct (Houts k' Hk') as (t & Ht & _ & Hrel).
    exists t. split; [exact Ht | split; [exact Hrel|]].
    destruct (relevant_true_inv t (Some quoted) Hrel) as (_ & Hcomp & _).
    now apply Hcomp.
  - intros issue Hin. apply relevant_component_member. now apply str_in_In.
  - intros issue Hnot. apply relevant_component_other. now apply str_in_false.
Qed.

Lemma main_passes_quoted_component_witness :
  main Sample.key_eq 1 Sample.connect "secret" Sample.argv
  = run Sample.key_eq 1 Sample.tracker "P" (Some (DQ +:+ "X" +:+ DQ))
  /\ (exists target, get_issue "P-2" Sample.project_P = Ok target
                     /\ relevant target (Some (DQ +:+ "X" +:+ DQ)) = true
                     /\ ~ In (DQ +:+ "X" +:+ DQ) (components target))
  /\ (exists outs ins,
        Sample.expected !! "P-1"
        = (if truthy outs then Some {| blocks := outs; is_blocked_by := ins |} else None)
        /\ In "P-2" outs)
  /\ relevant Sample.f (Some (DQ +:+ "X" +:+ DQ)) = relevant Sample.f None.
Proof.
  destruct (main_passes_quoted_component Sample.key_eq 1 Sample.connect "secret"
              Sample.argv) as (Hmain & _ & _ & _ & Hexact & Hsound & _ & Hother);
    [reflexivity|].
  split; [exact Hmain | split; [|split]].
  - apply (Hsound Sample.expected "P-1"
             {| blocks := ["P-2"]; is_blocked_by := ["P-3"] |} "P-2").
    + vm_compute. reflexivity.
    + vm_compute. reflexivity.
    + simpl. left. reflexivity.
  - destruct (Hexact Sample.expected Sample.a) as (outs & ins & Hlook & Houts).
    + unique_keys.
    + simpl. left. reflexivity.
    + simpl. intros [H | [H | [H | [H | []]]]]; discriminate H.
    + vm_compute. reflexivity.
    + exists outs, ins. split; [exact Hlook|].
      apply Houts. exists (Sample.blocks_out "P-2").
      split; [simpl; left; reflexivity|].
      split; [reflexivity|].
      exists {| ref_key := "P-2" |}, Sample.b.
      repeat split; vm_compute; reflexivity.
  - apply (Hother Sample.f). simpl. intros [H | []]. discriminate H.
Defined.
